(** * uncodec: the USEANet encoder and decoder (uncodec/modules/useanet.py)

    A shallow embedding of [USEANetEncoder], [ScaleLayer] and
    [USEANetDecoder]: the two constructors build a list of layer
    descriptors (and, for the decoder, a list of adaptation layers), the two
    [forward] methods walk that list.  The building blocks [SConv1d],
    [SEANetResnetBlock], [SLSTM], [SConvTranspose1d] and the classes of
    [torch.nn] are imported by the source; they appear here as descriptors
    holding the arguments the constructors pass, and their action on tensors
    is an interface ([TensorOps]) with several instances. *)

From Stdlib Require Import ZArith List String Bool Lia QArith.
From Stdlib Require SpecFloat.
Import ListNotations.

Open Scope string_scope.
Open Scope list_scope.
Open Scope Z_scope.

(** ** Exceptions and the error monad *)

Inductive exn : Type :=
| AttributeError (name : string)   (* getattr(nn, name) on a missing name *)
| UnrecognizedSkip                 (* Exception('Unrecognized skip_connection_type') *)
| IndexError                       (* list or ModuleList index out of range *)
| RuntimeError.                    (* raised inside a tensor operation *)

Inductive result (A : Type) : Type :=
| Ok (a : A)
| Raise (e : exn).

Arguments Ok {A} a.
Arguments Raise {A} e.

Definition bind {A B : Type} (r : result A) (k : A -> result B) : result B :=
  match r with
  | Ok a => k a
  | Raise e => Raise e
  end.

Notation "x <- e ;; k" := (bind e (fun x => k))
  (at level 61, e at next level, right associativity).

(** ** Python lists *)

(** [range(n)]: empty when [n <= 0]. *)
Definition range (n : Z) : list Z := map Z.of_nat (seq 0 (Z.to_nat n)).

(** [l[i]] with Python's negative indices; out of range raises. *)
Definition py_getitem {A : Type} (l : list A) (i : Z) : result A :=
  let n := Z.of_nat (List.length l) in
  let j := if i <? 0 then i + n else i in
  if (j <? 0) || (n <=? j) then Raise IndexError
  else match nth_error l (Z.to_nat j) with
       | Some a => Ok a
       | None => Raise IndexError
       end.

(** [np.prod]. *)
Definition prod (l : list Z) : Z := fold_left Z.mul l 1.

(** ** Layer descriptors *)

(** The keyword arguments every convolution receives unchanged.  The
    dictionaries [norm_params] and [activation_params] and the float
    [trim_right_ratio] are handed on untouched as well and are left out. *)
Record conv_opts : Type := {
  norm : string;
  causal : bool;
  pad_mode : string;
  true_skip : bool;
  compress : Z
}.

Inductive layer : Type :=
| SConv1d (in_channels out_channels kernel_size stride : Z) (o : conv_opts)
| SConvTranspose1d (in_channels out_channels kernel_size stride : Z) (o : conv_opts)
| SEANetResnetBlock (dim : Z) (kernel_sizes dilations : list Z)
                    (activation : string) (o : conv_opts)
| SLSTM (dim num_layers : Z)
| Act (cls : string).   (* an instance of the torch.nn class named [cls] *)

(** [l.__class__.__name__]. *)
Definition class_name (l : layer) : string :=
  match l with
  | SConv1d _ _ _ _ _ => "SConv1d"
  | SConvTranspose1d _ _ _ _ _ => "SConvTranspose1d"
  | SEANetResnetBlock _ _ _ _ _ => "SEANetResnetBlock"
  | SLSTM _ _ => "SLSTM"
  | Act cls => cls
  end.

(** [torch.nn.Linear(in_features, out_features)]. *)
Record Linear : Type := {
  in_features : Z;
  out_features : Z
}.

(** [ScaleLayer]: one learned scalar, [initial_scale] at construction. *)
Record ScaleLayer : Type := { scale : Q }.

Definition ScaleLayer_init (initial_scale : Q) : ScaleLayer :=
  {| scale := initial_scale |}.

(** [ScaleLayer()]: the default [initial_scale=0.]. *)
Definition ScaleLayer_default : ScaleLayer := ScaleLayer_init 0%Q.

(** What [__init__] appends to [adaptation_layers]. *)
Inductive adaptation : Type :=
| AdLinear (lin : Linear)
| AdSequential (lin : Linear) (sc : ScaleLayer).

(** ** Configuration *)

(** The constructor arguments.  The last four are arguments of the decoder
    only. *)
Record Config : Type := {
  channels : Z;
  dimension : Z;
  n_filters : Z;
  n_residual_layers : Z;
  ratios : list Z;
  activation : string;
  opts : conv_opts;
  kernel_size : Z;
  last_kernel_size : Z;
  residual_kernel_size : Z;
  dilation_base : Z;
  lstm : Z;
  final_activation : option string;
  skip_connection_type : string;
  n_filters_encoder : Z
}.

Record USEANetEncoder : Type := {
  enc_ratios : list Z;
  enc_hop_length : Z;
  enc_model : list layer
}.

Record USEANetDecoder : Type := {
  dec_ratios : list Z;
  dec_hop_length : Z;
  dec_skip_connection_type : string;
  dec_model : list layer;
  adaptation_layers : list adaptation
}.

Section Construction.

(** The namespace [torch.nn]: the class an attribute name resolves to, given
    by that class's [__name__]; [None] when the name is missing. *)
Variable torch_nn : string -> option string.

(** [getattr(nn, name)(...)]: a fresh instance of the class. *)
Definition getattr_nn (name : string) : result layer :=
  match torch_nn name with
  | Some cls => Ok (Act cls)
  | None => Raise (AttributeError name)
  end.

(** *** USEANetEncoder.__init__ *)

(** The [for j in range(n_residual_layers)] loop of both constructors. *)
Definition add_residual_layers (c : Config) (dim : Z) (model : list layer)
  : list layer :=
  fold_left
    (fun model j =>
       model ++ [SEANetResnetBlock dim [residual_kernel_size c; 1]
                   [dilation_base c ^ j; 1] (activation c) (opts c)])
    (range (n_residual_layers c)) model.

(** The [for i, ratio in enumerate(self.ratios)] loop of the encoder, on the
    loop state [(mult, model)]. *)
Fixpoint enc_stages (c : Config) (act : layer) (rs : list Z)
  (mult : Z) (model : list layer) : Z * list layer :=
  match rs with
  | [] => (mult, model)
  | ratio :: rs' =>
      let model := add_residual_layers c (mult * n_filters c) model in
      let model :=
        model ++ [act;
                  SConv1d (mult * n_filters c) (mult * n_filters c * 2)
                          (ratio * 2) ratio (opts c)] in
      enc_stages c act rs' (mult * 2) model
  end.

Definition USEANetEncoder_init (c : Config) : result USEANetEncoder :=
  let self_ratios := rev (ratios c) in
  act <- getattr_nn (activation c) ;;
  let mult := 1 in
  let model :=
    [SConv1d (channels c) (mult * n_filters c) (kernel_size c) 1 (opts c)] in
  let '(mult, model) := enc_stages c act self_ratios mult model in
  let model :=
    if lstm c =? 0 then model
    else model ++ [SLSTM (mult * n_filters c) (lstm c)] in
  let model :=
    model ++ [act;
              SConv1d (mult * n_filters c) (dimension c) (last_kernel_size c) 1
                      (opts c)] in
  Ok {| enc_ratios := self_ratios;
        enc_hop_length := prod self_ratios;
        enc_model := model |}.

(** *** USEANetDecoder.__init__ *)

(** The [if / elif / else] on [skip_connection_type] inside the stage loop. *)
Definition stage_adaptation (c : Config) (mult : Z) : result adaptation :=
  if String.eqb (skip_connection_type c) "cat_linear" then
    Ok (AdLinear {| in_features := 2 * mult * n_filters c;
                    out_features := mult * n_filters c |})
  else if String.eqb (skip_connection_type c) "scaled_sum" then
    Ok (AdSequential {| in_features := mult * n_filters_encoder c;
                        out_features := mult * n_filters c |}
                     ScaleLayer_default)
  else Raise UnrecognizedSkip.

(** The same test after the final layers. *)
Definition final_adaptation (c : Config) : result adaptation :=
  if String.eqb (skip_connection_type c) "cat_linear" then
    Ok (AdLinear {| in_features := n_filters c + n_filters_encoder c;
                    out_features := n_filters c |})
  else if String.eqb (skip_connection_type c) "scaled_sum" then
    Ok (AdSequential {| in_features := n_filters_encoder c;
                        out_features := n_filters c |}
                     ScaleLayer_default)
  else Raise UnrecognizedSkip.

(** The [for i, ratio in enumerate(self.ratios)] loop of the decoder, on the
    loop state [(mult, model, adaptation_layers)]. *)
Fixpoint dec_stages (c : Config) (act : layer) (rs : list Z)
  (mult : Z) (model : list layer) (adapt : list adaptation)
  : result (Z * list layer * list adaptation) :=
  match rs with
  | [] => Ok (mult, model, adapt)
  | ratio :: rs' =>
      let model :=
        model ++ [act;
                  SConvTranspose1d (mult * n_filters c) (mult * n_filters c / 2)
                                   (ratio * 2) ratio (opts c)] in
      a <- stage_adaptation c mult ;;
      let adapt := adapt ++ [a] in
      let model := add_residual_layers c (mult * n_filters c / 2) model in
      dec_stages c act rs' (mult / 2) model adapt
  end.

Definition USEANetDecoder_init (c : Config) : result USEANetDecoder :=
  act <- getattr_nn (activation c) ;;
  let mult := 2 ^ Z.of_nat (List.length (ratios c)) in
  let model :=
    [SConv1d (dimension c) (mult * n_filters c) (kernel_size c) 1 (opts c)] in
  let model :=
    if lstm c =? 0 then model
    else model ++ [SLSTM (mult * n_filters c) (lstm c)] in
  st <- dec_stages c act (ratios c) mult model [] ;;
  let '(mult, model, adapt) := st in
  let model :=
    model ++ [act;
              SConv1d (n_filters c) (channels c) (last_kernel_size c) 1
                      (opts c)] in
  a <- final_adaptation c ;;
  let adapt := adapt ++ [a] in
  model <-
    match final_activation c with
    | Some name => final_act <- getattr_nn name ;; Ok (model ++ [final_act])
    | None => Ok model
    end ;;
  Ok {| dec_ratios := ratios c;
        dec_hop_length := prod (ratios c);
        dec_skip_connection_type := skip_connection_type c;
        dec_model := model;
        adaptation_layers := adapt |}.

End Construction.

(** ** Tensor operations

    What the two [forward] methods ask of tensors.  [call l x] is [l(x)] for
    a layer of the model list; the remaining operations are the ones the
    decoder's fusion step spells out. *)
Class TensorOps (T : Type) : Type := {
  call : layer -> T -> result T;
  cat : T -> T -> result T;           (* torch.cat([x, a], axis=1) *)
  transpose : T -> T;                 (* torch.transpose(x, 1, 2) *)
  linear : Linear -> T -> result T;   (* a Linear module applied to x *)
  mul_scalar : T -> Q -> T;           (* x * self.scale *)
  add : T -> T -> result T            (* x + y *)
}.

Section Forward.

Context {T : Type} `{TensorOps T}.

(** *** USEANetEncoder.forward *)

(** The [for l in self.model] loop on the state [(x, activations)]. *)
Fixpoint enc_loop (model : list layer) (x : T) (activations : list T)
  : result (T * list T) :=
  match model with
  | [] => Ok (x, activations)
  | l :: model' =>
      x <- call l x ;;
      let activations :=
        if String.eqb (class_name l) "ELU" then activations ++ [x]
        else activations in
      enc_loop model' x activations
  end.

Definition USEANetEncoder_forward (self : USEANetEncoder) (x : T)
  : result (T * list T) :=
  enc_loop (enc_model self) x [].

(** *** ScaleLayer.forward *)
Definition ScaleLayer_forward (self : ScaleLayer) (x : T) : T :=
  mul_scalar x (scale self).

(** An entry of [adaptation_layers] applied to a tensor: a [Linear], or the
    [Sequential] of a [Linear] and a [ScaleLayer]. *)
Definition adaptation_forward (a : adaptation) (x : T) : result T :=
  match a with
  | AdLinear lin => linear lin x
  | AdSequential lin sc => y <- linear lin x ;; Ok (ScaleLayer_forward sc y)
  end.

(** *** USEANetDecoder.forward *)

(** The body of the ['ELU'] branch after [x = l(x)], up to [i += 1]. *)
Definition fuse (self : USEANetDecoder) (activations : list T) (i : Z) (x : T)
  : result T :=
  if String.eqb (dec_skip_connection_type self) "cat_linear" then
    a <- py_getitem activations (-1 - i) ;;
    x <- cat x a ;;
    let x := transpose x in
    ad <- py_getitem (adaptation_layers self) i ;;
    x <- adaptation_forward ad x ;;
    Ok (transpose x)
  else if String.eqb (dec_skip_connection_type self) "scaled_sum" then
    a <- py_getitem activations (-1 - i) ;;
    let xskip := transpose a in
    ad <- py_getitem (adaptation_layers self) i ;;
    y <- adaptation_forward ad xskip ;;
    add x (transpose y)
  else Ok x.

(** The [for l in self.model] loop on the state [(x, i)]. *)
Fixpoint dec_loop (self : USEANetDecoder) (activations : list T)
  (model : list layer) (x : T) (i : Z) : result (T * Z) :=
  match model with
  | [] => Ok (x, i)
  | l :: model' =>
      if String.eqb (class_name l) "ELU" then
        x <- call l x ;;
        x <- fuse self activations i x ;;
        dec_loop self activations model' x (i + 1)
      else
        x <- call l x ;;
        dec_loop self activations model' x i
  end.

Definition USEANetDecoder_forward (self : USEANetDecoder) (z : T * list T)
  : result T :=
  let '(x, activations) := z in
  r <- dec_loop self activations (dec_model self) x 0 ;;
  Ok (fst r).

End Forward.

(** ** Instances of the tensor interface *)

(** *** Computation graphs

    Every operation succeeds and records itself: running [forward] on
    [GInput]s yields the graph of operations it performed, in order. *)
Inductive graph : Type :=
| GInput (name : string)
| GCall (l : layer) (x : graph)
| GCat (x a : graph)
| GTranspose (x : graph)
| GLinear (lin : Linear) (x : graph)
| GMulScalar (x : graph) (s : Q)
| GAdd (x y : graph).

#[export] Instance graph_ops : TensorOps graph := {|
  call l x := Ok (GCall l x);
  cat x a := Ok (GCat x a);
  transpose x := GTranspose x;
  linear lin x := Ok (GLinear lin x);
  mul_scalar x s := GMulScalar x s;
  add x y := Ok (GAdd x y)
|}.

(** *** Shapes *)

(** The shape of a rank-3 tensor: (batch, channels, time) for the tensors
    the layers exchange, (batch, time, channels) after [transpose]. *)
Record shape : Type := Shape { dim0 : Z; dim1 : Z; dim2 : Z }.

Definition shape_eqb (s1 s2 : shape) : bool :=
  (dim0 s1 =? dim0 s2) && (dim1 s1 =? dim1 s2) && (dim2 s1 =? dim2 s2).

(** Broadcasting of one dimension in an elementwise operation. *)
Definition broadcast_dim (a b : Z) : result Z :=
  if a =? b then Ok a
  else if a =? 1 then Ok b
  else if b =? 1 then Ok a
  else Raise RuntimeError.

Definition broadcast (s1 s2 : shape) : result shape :=
  d0 <- broadcast_dim (dim0 s1) (dim0 s2) ;;
  d1 <- broadcast_dim (dim1 s1) (dim1 s2) ;;
  d2 <- broadcast_dim (dim2 s1) (dim2 s2) ;;
  Ok (Shape d0 d1 d2).

(** Modelled from the spec: the shape behaviour of the imported building
    blocks [SConv1d], [SConvTranspose1d], [SEANetResnetBlock] and [SLSTM],
    whose code is not in [useanet.py].  A convolution maps its input channel
    count to its output channel count and "downsamples time by the stride";
    a transposed convolution "upsamples time by the stride"; residual blocks
    and the recurrent layer leave the shape alone; an activation is
    elementwise.  A layer given another channel count than the one it was
    built for raises. *)
Definition shape_call (l : layer) (s : shape) : result shape :=
  match l with
  | SConv1d cin cout _ stride _ =>
      if dim1 s =? cin then Ok (Shape (dim0 s) cout (dim2 s / stride))
      else Raise RuntimeError
  | SConvTranspose1d cin cout _ stride _ =>
      if dim1 s =? cin then Ok (Shape (dim0 s) cout (dim2 s * stride))
      else Raise RuntimeError
  | SEANetResnetBlock dim _ _ _ _ =>
      if dim1 s =? dim then Ok s else Raise RuntimeError
  | SLSTM dim _ =>
      if dim1 s =? dim then Ok s else Raise RuntimeError
  | Act _ => Ok s
  end.

(** [torch.cat] along axis 1: the other two dimensions must agree. *)
Definition shape_cat (s1 s2 : shape) : result shape :=
  if (dim0 s1 =? dim0 s2) && (dim2 s1 =? dim2 s2)
  then Ok (Shape (dim0 s1) (dim1 s1 + dim1 s2) (dim2 s1))
  else Raise RuntimeError.

Definition shape_transpose (s : shape) : shape :=
  Shape (dim0 s) (dim2 s) (dim1 s).

(** A [Linear] acts on the last dimension, which must be [in_features]. *)
Definition shape_linear (lin : Linear) (s : shape) : result shape :=
  if dim2 s =? in_features lin
  then Ok (Shape (dim0 s) (dim1 s) (out_features lin))
  else Raise RuntimeError.

#[export] Instance shape_ops : TensorOps shape := {|
  call := shape_call;
  cat := shape_cat;
  transpose := shape_transpose;
  linear := shape_linear;
  mul_scalar s _ := s;
  add := broadcast
|}.

(** *** Tensors with entries

    A rank-3 tensor is its shape and its entries; the entries are rationals,
    standing for exact real arithmetic, without rounding, infinities or NaN
    (float32 entries are the [ftensor]s further down). *)
Record tensor : Type := Tensor {
  tshape : shape;
  entry : Z -> Z -> Z -> Q
}.

Definition qsum (f : Z -> Q) (n : Z) : Q :=
  fold_left (fun acc k => (acc + f k)%Q) (range n) 0%Q.

(** The index read in an operand whose dimension [d] is broadcast. *)
Definition bidx (d i : Z) : Z := if d =? 1 then 0 else i.

Section Numeric.

(** The imported layers as functions on tensors, and the parameters of
    every [Linear] module (whatever its initialisation drew). *)
Variable layer_fn : layer -> tensor -> result tensor.
Variable weight : Linear -> Z -> Z -> Q.
Variable bias : Linear -> Z -> Q.

Definition tensor_cat (x a : tensor) : result tensor :=
  s <- shape_cat (tshape x) (tshape a) ;;
  Ok (Tensor s (fun b c t =>
                  if c <? dim1 (tshape x) then entry x b c t
                  else entry a b (c - dim1 (tshape x)) t)).

Definition tensor_transpose (x : tensor) : tensor :=
  Tensor (shape_transpose (tshape x)) (fun b i j => entry x b j i).

Definition tensor_linear (lin : Linear) (x : tensor) : result tensor :=
  s <- shape_linear lin (tshape x) ;;
  Ok (Tensor s (fun b t o =>
                  (qsum (fun k => entry x b t k * weight lin o k)
                        (in_features lin)
                   + bias lin o)%Q)).

Definition tensor_mul_scalar (x : tensor) (s : Q) : tensor :=
  Tensor (tshape x) (fun b c t => (entry x b c t * s)%Q).

Definition tensor_add (x y : tensor) : result tensor :=
  s <- broadcast (tshape x) (tshape y) ;;
  Ok (Tensor s (fun b c t =>
                  (entry x (bidx (dim0 (tshape x)) b) (bidx (dim1 (tshape x)) c)
                           (bidx (dim2 (tshape x)) t)
                   + entry y (bidx (dim0 (tshape y)) b) (bidx (dim1 (tshape y)) c)
                             (bidx (dim2 (tshape y)) t))%Q)).

#[local] Instance tensor_ops : TensorOps tensor := {|
  call := layer_fn;
  cat := tensor_cat;
  transpose := tensor_transpose;
  linear := tensor_linear;
  mul_scalar := tensor_mul_scalar;
  add := tensor_add
|}.

End Numeric.

(** ** A fragment of [torch.nn] for the examples

    The activation classes the examples name; each resolves to the class of
    the same name. *)
Definition torch_nn_sample (name : string) : option string :=
  if existsb (String.eqb name) ["ELU"; "ReLU"; "GELU"; "Tanh"; "Identity"]
  then Some name else None.

(** ** The layer lists in closed form

    What the constructors' loops amount to, stage by stage, written after
    the specification: the residual blocks of a stage, the encoder stage
    (residual blocks, nonlinearity, strided convolution doubling the
    width), the decoder stage (nonlinearity, transposed convolution halving
    the width, residual blocks). *)

Definition residual_blocks (c : Config) (dim : Z) : list layer :=
  map (fun j => SEANetResnetBlock dim [residual_kernel_size c; 1]
                  [dilation_base c ^ j; 1] (activation c) (opts c))
      (range (n_residual_layers c)).

Definition downsample (c : Config) (mult ratio : Z) : layer :=
  SConv1d (mult * n_filters c) (2 * mult * n_filters c) (2 * ratio) ratio
          (opts c).

Definition encoder_stage (c : Config) (act : layer) (mult ratio : Z)
  : list layer :=
  residual_blocks c (mult * n_filters c) ++ [act; downsample c mult ratio].

Fixpoint encoder_stages (c : Config) (act : layer) (mult : Z) (rs : list Z)
  : list layer :=
  match rs with
  | [] => []
  | ratio :: rs' =>
      encoder_stage c act mult ratio ++ encoder_stages c act (2 * mult) rs'
  end.

Definition lstm_layers (c : Config) (mult : Z) : list layer :=
  if lstm c =? 0 then [] else [SLSTM (mult * n_filters c) (lstm c)].

Definition n_stages (c : Config) : nat := List.length (ratios c).

Definition top_mult (c : Config) : Z := 2 ^ Z.of_nat (n_stages c).

Definition encoder_first (c : Config) : layer :=
  SConv1d (channels c) (n_filters c) (kernel_size c) 1 (opts c).

Definition encoder_last (c : Config) : layer :=
  SConv1d (top_mult c * n_filters c) (dimension c) (last_kernel_size c) 1
          (opts c).

Definition encoder_layers (c : Config) (act : layer) : list layer :=
  [encoder_first c]
  ++ encoder_stages c act 1 (rev (ratios c))
  ++ lstm_layers c (top_mult c)
  ++ [act; encoder_last c].

Definition upsample (c : Config) (mult ratio : Z) : layer :=
  SConvTranspose1d (mult * n_filters c) (mult * n_filters c / 2)
                   (ratio * 2) ratio (opts c).

Definition decoder_stage (c : Config) (act : layer) (mult ratio : Z)
  : list layer :=
  [act; upsample c mult ratio] ++ residual_blocks c (mult * n_filters c / 2).

Fixpoint decoder_stages (c : Config) (act : layer) (mult : Z) (rs : list Z)
  : list layer :=
  match rs with
  | [] => []
  | ratio :: rs' =>
      decoder_stage c act mult ratio ++ decoder_stages c act (mult / 2) rs'
  end.

Definition decoder_first (c : Config) : layer :=
  SConv1d (dimension c) (top_mult c * n_filters c) (kernel_size c) 1 (opts c).

Definition decoder_last (c : Config) : layer :=
  SConv1d (n_filters c) (channels c) (last_kernel_size c) 1 (opts c).

(** The decoder's list up to and including the last convolution; the
    optional final activation follows it. *)
Definition decoder_layers (c : Config) (act : layer) : list layer :=
  [decoder_first c]
  ++ lstm_layers c (top_mult c)
  ++ decoder_stages c act (top_mult c) (ratios c)
  ++ [act; decoder_last c].

(** The optional last layer of the decoder's list. *)
Definition final_layers (final : option layer) : list layer :=
  match final with
  | Some l => [l]
  | None => []
  end.

(** The adaptation layers of the two supported strategies. *)
Definition cat_linear_stage (c : Config) (mult : Z) : adaptation :=
  AdLinear {| in_features := 2 * mult * n_filters c;
              out_features := mult * n_filters c |}.

Definition scaled_sum_stage (c : Config) (mult : Z) : adaptation :=
  AdSequential {| in_features := mult * n_filters_encoder c;
                  out_features := mult * n_filters c |}
               {| scale := 0%Q |}.

Definition cat_linear_final (c : Config) : adaptation :=
  AdLinear {| in_features := n_filters c + n_filters_encoder c;
              out_features := n_filters c |}.

Definition scaled_sum_final (c : Config) : adaptation :=
  AdSequential {| in_features := n_filters_encoder c;
                  out_features := n_filters c |}
               {| scale := 0%Q |}.

Definition supported (sk : string) : Prop :=
  sk = "cat_linear" \/ sk = "scaled_sum".

Definition stage_adapter (c : Config) (mult : Z) : adaptation :=
  if String.eqb (skip_connection_type c) "cat_linear"
  then cat_linear_stage c mult else scaled_sum_stage c mult.

Definition final_adapter (c : Config) : adaptation :=
  if String.eqb (skip_connection_type c) "cat_linear"
  then cat_linear_final c else scaled_sum_final c.

(** The stage adapters, one per ratio, [mult] halving from stage to stage. *)
Fixpoint stage_adapters (c : Config) (mult : Z) (rs : list Z)
  : list adaptation :=
  match rs with
  | [] => []
  | _ :: rs' => stage_adapter c mult :: stage_adapters c (mult / 2) rs'
  end.

(** ** The forward passes in closed form

    The two loops written out as pipelines: no class-name test and no
    running counter, every capture and every fusion at an explicit
    place. *)

Section Pipelines.

Context {T : Type} `{TensorOps T}.

(** The layers of a list applied one after the other. *)
Fixpoint call_all (ls : list layer) (x : T) : result T :=
  match ls with
  | [] => Ok x
  | l :: ls' => x <- call l x ;; call_all ls' x
  end.

(** An encoder stage: residual blocks, nonlinearity, capture, strided
    convolution. *)
Definition encoder_stage_forward (c : Config) (act : layer) (mult ratio : Z)
  (st : T * list T) : result (T * list T) :=
  x <- call_all (residual_blocks c (mult * n_filters c)) (fst st) ;;
  a <- call act x ;;
  x <- call (downsample c mult ratio) a ;;
  Ok (x, snd st ++ [a]).

Fixpoint encoder_stages_forward (c : Config) (act : layer) (mult : Z)
  (rs : list Z) (st : T * list T) : result (T * list T) :=
  match rs with
  | [] => Ok st
  | ratio :: rs' =>
      st <- encoder_stage_forward c act mult ratio st ;;
      encoder_stages_forward c act (2 * mult) rs' st
  end.

(** The whole encoder, capturing after every nonlinearity. *)
Definition encoder_forward (c : Config) (act : layer) (x : T)
  : result (T * list T) :=
  x <- call (encoder_first c) x ;;
  st <- encoder_stages_forward c act 1 (rev (ratios c)) (x, []) ;;
  x <- call_all (lstm_layers c (top_mult c)) (fst st) ;;
  a <- call act x ;;
  z <- call (encoder_last c) a ;;
  Ok (z, snd st ++ [a]).

(** The activation consumed at fusion point [i]: the one at position
    [length - 1 - i] of the capture list. *)
Definition consumed {A : Type} (activations : list A) (i : nat) : result A :=
  if (i <? List.length activations)%nat
  then match nth_error activations (List.length activations - 1 - i) with
       | Some a => Ok a
       | None => Raise IndexError
       end
  else Raise IndexError.

(** The adaptation layer of fusion point [i]. *)
Definition adapter_at (adapt : list adaptation) (i : nat) : result adaptation :=
  match nth_error adapt i with
  | Some ad => Ok ad
  | None => Raise IndexError
  end.

(** Skip fusion of [x] with an encoder activation [a] through the
    adaptation layer [ad], under strategy [sk]. *)
Definition fusion (sk : string) (a : result T) (ad : result adaptation)
  (x : T) : result T :=
  if String.eqb sk "cat_linear" then
    a <- a ;;
    x <- cat x a ;;
    ad <- ad ;;
    x <- adaptation_forward ad (transpose x) ;;
    Ok (transpose x)
  else if String.eqb sk "scaled_sum" then
    a <- a ;;
    ad <- ad ;;
    y <- adaptation_forward ad (transpose a) ;;
    add x (transpose y)
  else Ok x.

Definition fusion_point (self : USEANetDecoder) (activations : list T)
  (i : nat) (x : T) : result T :=
  fusion (dec_skip_connection_type self) (consumed activations i)
         (adapter_at (adaptation_layers self) i) x.

(** A decoder stage in the order the specification gives: nonlinearity,
    transposed convolution, skip fusion, residual blocks. *)
Definition claimed_stage_forward (self : USEANetDecoder) (activations : list T)
  (c : Config) (act : layer) (mult ratio : Z) (i : Z) (x : T) : result T :=
  x <- call act x ;;
  x <- call (upsample c mult ratio) x ;;
  x <- fuse self activations i x ;;
  call_all (residual_blocks c (mult * n_filters c / 2)) x.

(** A decoder stage with the fusion right after the nonlinearity. *)
Definition stage_forward (self : USEANetDecoder) (activations : list T)
  (c : Config) (act : layer) (mult ratio : Z) (i : nat) (x : T) : result T :=
  x <- call act x ;;
  x <- fusion_point self activations i x ;;
  x <- call (upsample c mult ratio) x ;;
  call_all (residual_blocks c (mult * n_filters c / 2)) x.

Fixpoint stages_forward (self : USEANetDecoder) (activations : list T)
  (c : Config) (act : layer) (mult : Z) (rs : list Z) (i : nat) (x : T)
  : result T :=
  match rs with
  | [] => Ok x
  | ratio :: rs' =>
      x <- stage_forward self activations c act mult ratio i x ;;
      stages_forward self activations c act (mult / 2) rs' (S i) x
  end.

(** The whole decoder: fusion points [0 .. n - 1] in the stages, fusion
    point [n] after the last nonlinearity. *)
Definition decoder_forward (self : USEANetDecoder) (activations : list T)
  (c : Config) (act : layer) (final : option layer) (x : T) : result T :=
  x <- call (decoder_first c) x ;;
  x <- call_all (lstm_layers c (top_mult c)) x ;;
  x <- stages_forward self activations c act (top_mult c) (ratios c) 0 x ;;
  x <- call act x ;;
  x <- fusion_point self activations (n_stages c) x ;;
  x <- call (decoder_last c) x ;;
  call_all (final_layers final) x.

(** How many layers of a list the loops take for a fusion point. *)
Definition count_ELU (ls : list layer) : nat :=
  List.length (filter (fun l => String.eqb (class_name l) "ELU") ls).

End Pipelines.

(** ** The default arguments of both constructors *)

Definition default_opts : conv_opts :=
  {| norm := "weight_norm"; causal := false; pad_mode := "reflect";
     true_skip := false; compress := 2 |}.

Definition default_config : Config :=
  {| channels := 1; dimension := 128; n_filters := 32;
     n_residual_layers := 1; ratios := [8; 5; 4; 2];
     activation := "ELU"; opts := default_opts;
     kernel_size := 7; last_kernel_size := 7; residual_kernel_size := 3;
     dilation_base := 2; lstm := 2;
     final_activation := None; skip_connection_type := "cat_linear";
     n_filters_encoder := 32 |}.

(** The defaults with other ratios, activations and skip strategy. *)
Definition config_with (rs : list Z) (act : string) (final : option string)
  (sk : string) : Config :=
  {| channels := channels default_config;
     dimension := dimension default_config;
     n_filters := n_filters default_config;
     n_residual_layers := n_residual_layers default_config;
     ratios := rs; activation := act; opts := default_opts;
     kernel_size := kernel_size default_config;
     last_kernel_size := last_kernel_size default_config;
     residual_kernel_size := residual_kernel_size default_config;
     dilation_base := dilation_base default_config;
     lstm := lstm default_config;
     final_activation := final; skip_connection_type := sk;
     n_filters_encoder := n_filters_encoder default_config |}.

(** One-stage configurations for the examples: the defaults with the one
    ratio 2; with a [Tanh] on the output; with [ReLU] in the stages and
    [ELU] on the output; with [ELU] for both; with the scaled-sum
    strategy. *)
Definition one_stage_config : Config :=
  config_with [2] "ELU" None "cat_linear".

Definition tanh_config : Config :=
  config_with [2] "ELU" (Some "Tanh") "cat_linear".

Definition relu_elu_config : Config :=
  config_with [2] "ReLU" (Some "ELU") "cat_linear".

Definition elu_elu_config : Config :=
  config_with [2] "ELU" (Some "ELU") "cat_linear".

Definition scaled_sum_config : Config :=
  config_with [2] "ELU" None "scaled_sum".

(** Tensors to run one fusion on: entries growing with the index, every
    [Linear] with all weights and biases 1, the layers the identity. *)
Definition ramp (s : shape) : tensor :=
  Tensor s (fun b c t => inject_Z (b + c + t)).

Definition ones_weight (lin : Linear) (o k : Z) : Q := 1%Q.
Definition ones_bias (lin : Linear) (o : Z) : Q := 1%Q.
Definition identity_layers (l : layer) (x : tensor) : result tensor := Ok x.

(** ** Layers by class *)

(** The nonlinearities of a layer list: the instances of [torch.nn]
    activation classes, whatever their class. *)
Definition is_nonlinearity (l : layer) : bool :=
  match l with
  | Act _ => true
  | _ => false
  end.

Definition count_nonlinearities (ls : list layer) : nat :=
  List.length (filter is_nonlinearity ls).

(** No layer of the list is of class ELU. *)
Definition no_ELU (ls : list layer) : Prop :=
  Forall (fun l => class_name l <> "ELU") ls.

(** The final activation, when there is one, is of another class than
    ELU. *)
Definition final_not_ELU (torch_nn : string -> option string) (c : Config)
  : Prop :=
  match final_activation c with
  | Some name => torch_nn name <> Some "ELU"
  | None => True
  end.

(** [l[i]] read from the back: position [i] of the reversed list. *)
Definition from_back {A : Type} (l : list A) (i : nat) : result A :=
  match nth_error (rev l) i with
  | Some a => Ok a
  | None => Raise IndexError
  end.

(** ** Shapes along the pipeline *)

(** The activations kept by the encoder's loop: the captures when the class
    is ELU, none otherwise. *)
Definition captured (cls : string) (l : list shape) : list shape :=
  if String.eqb cls "ELU" then l else [].

(** The shapes captured in the encoder's stages, for stage ratios [rs] (in
    the encoder's order), batch [b], width [mult * nf] at the first stage
    and time [t] after the last. *)
Fixpoint enc_captures (b nf mult t : Z) (rs : list Z) : list shape :=
  match rs with
  | [] => []
  | r :: rs' =>
      Shape b (mult * nf) (t * prod (r :: rs'))
      :: enc_captures b nf (2 * mult) t rs'
  end.

(** An encoder configuration and a decoder configuration that belong
    together: the same ratios (the encoder reverses them itself), the same
    widths, channels, latent dimension and activation. *)
Definition matched (ce cd : Config) : Prop :=
  ratios cd = ratios ce /\
  n_filters cd = n_filters ce /\
  n_filters_encoder cd = n_filters ce /\
  channels cd = channels ce /\
  dimension cd = dimension ce /\
  activation cd = activation ce.

(** An adaptation layer that fits a fusion at width [w] on both sides. *)
Definition fits (sk : string) (ad : adaptation) (w : Z) : Prop :=
  (sk = "cat_linear" /\
   exists lin, ad = AdLinear lin /\
               in_features lin = 2 * w /\ out_features lin = w) \/
  (sk = "scaled_sum" /\
   exists lin sc, ad = AdSequential lin sc /\
                  in_features lin = w /\ out_features lin = w).

(** What fusion point [i] needs on shapes of width [w]: the activation it
    consumes has the decoder tensor's shape, and its adaptation layer
    fits. *)
Definition fusion_ready (self : USEANetDecoder) (acts : list shape)
  (i : nat) (b w t : Z) : Prop :=
  consumed acts i = Ok (Shape b w t) /\
  exists ad,
    adapter_at (adaptation_layers self) i = Ok ad /\
    fits (dec_skip_connection_type self) ad w.

(** The counter after a layer of class [cls]. *)
Definition bump (cls : string) (i : nat) : nat :=
  if String.eqb cls "ELU" then S i else i.

(** The optional final layer is an activation of another class than ELU. *)
Definition final_plain (final : option layer) : Prop :=
  match final with
  | Some l => exists fcls, l = Act fcls /\ fcls <> "ELU"
  | None => True
  end.

(** ** What the constructors return *)

(** The test of both [if / elif] chains on [skip_connection_type]. *)
Definition supportedb (sk : string) : bool :=
  String.eqb sk "cat_linear" || String.eqb sk "scaled_sum".

(** The encoder built from [c] when its activation resolves to the class
    [cls]. *)
Definition encoder_built (c : Config) (cls : string) : USEANetEncoder :=
  {| enc_ratios := rev (ratios c);
     enc_hop_length := prod (rev (ratios c));
     enc_model := encoder_layers c (Act cls) |}.

(** The decoder built from [c] when its activation resolves to the class
    [cls] and its final activation, if any, to the layer [final]. *)
Definition decoder_built (c : Config) (cls : string) (final : option layer)
  : USEANetDecoder :=
  {| dec_ratios := ratios c;
     dec_hop_length := prod (ratios c);
     dec_skip_connection_type := skip_connection_type c;
     dec_model := decoder_layers c (Act cls) ++ final_layers final;
     adaptation_layers :=
       stage_adapters c (top_mult c) (ratios c) ++ [final_adapter c] |}.

(** The number of layers one stage contributes, and the optional ones. *)
Definition stage_size (c : Config) : nat :=
  (Z.to_nat (n_residual_layers c) + 2)%nat.

Definition lstm_size (c : Config) : nat :=
  if lstm c =? 0 then 0%nat else 1%nat.

Definition final_size (c : Config) : nat :=
  match final_activation c with
  | Some _ => 1%nat
  | None => 0%nat
  end.

(** No tensor operation raises. *)
Definition ops_total (T : Type) `{TensorOps T} : Prop :=
  (forall l x, exists y, call l x = Ok y) /\
  (forall x a, exists y, cat x a = Ok y) /\
  (forall lin x, exists y, linear lin x = Ok y) /\
  (forall x y, exists z, add x y = Ok z).

(** The projection a [Linear] computes for output channel [o] from the
    [n] input channels [k |-> f k]. *)
Definition projection (weight : Linear -> Z -> Z -> Q)
  (bias : Linear -> Z -> Q) (lin : Linear) (o : Z) (f : Z -> Q) (n : Z) : Q :=
  (qsum (fun k => f k * weight lin o k) n + bias lin o)%Q.

(** The arguments [c] with [final_activation=None]. *)
Definition without_final (c : Config) : Config :=
  {| channels := channels c; dimension := dimension c;
     n_filters := n_filters c; n_residual_layers := n_residual_layers c;
     ratios := ratios c; activation := activation c; opts := opts c;
     kernel_size := kernel_size c; last_kernel_size := last_kernel_size c;
     residual_kernel_size := residual_kernel_size c;
     dilation_base := dilation_base c; lstm := lstm c;
     final_activation := None;
     skip_connection_type := skip_connection_type c;
     n_filters_encoder := n_filters_encoder c |}.

(** A resampling layer changes the width by exactly two and has a kernel
    of twice its stride; the other layers are not constrained. *)
Definition resamples_by_two (l : layer) : Prop :=
  match l with
  | SConvTranspose1d cin cout k s _ => cin = 2 * cout /\ k = 2 * s
  | SConv1d cin cout k s _ => s = 1 \/ (cout = 2 * cin /\ k = 2 * s)
  | _ => True
  end.

(** ** Tensors of float32 entries

    The entries of the tensors the network computes on are IEEE 754
    binary32 numbers ([torch]'s default type): 24 bits of precision, largest
    exponent 128, with signed zeros, infinities and NaN, rounding to
    nearest even. *)
Definition f32 : Type := SpecFloat.spec_float.

Definition f32_mul : f32 -> f32 -> f32 := SpecFloat.SFmul 24 128.
Definition f32_add : f32 -> f32 -> f32 := SpecFloat.SFadd 24 128.

(** The float32 nearest to [m * 2 ^ e]. *)
Definition f32_pow2 (m e : Z) : f32 :=
  SpecFloat.binary_normalize 24 128 m e false.

(** The float32 that a Python float given as the rational [q] becomes in a
    parameter tensor. *)
Definition f32_of_Q (q : Q) : f32 :=
  SpecFloat.SFdiv 24 128 (f32_pow2 (Qnum q) 0) (f32_pow2 (Zpos (Qden q)) 0).

(** Neither an infinity nor NaN. *)
Definition f32_finite (x : f32) : Prop :=
  match x with
  | SpecFloat.S754_infinity _ => False
  | SpecFloat.S754_nan => False
  | _ => True
  end.

Definition f32_zero (x : f32) : Prop :=
  match x with
  | SpecFloat.S754_zero _ => True
  | _ => False
  end.

(** The same number: the same float32, or two zeros (of any signs). *)
Definition same_value (x y : f32) : Prop :=
  x = y \/ (f32_zero x /\ f32_zero y).

Record ftensor : Type := FTensor {
  fshape : shape;
  fentry : Z -> Z -> Z -> f32
}.

Definition ftensor_cat (x a : ftensor) : result ftensor :=
  s <- shape_cat (fshape x) (fshape a) ;;
  Ok (FTensor s (fun b c t =>
                   if c <? dim1 (fshape x) then fentry x b c t
                   else fentry a b (c - dim1 (fshape x)) t)).

Definition ftensor_transpose (x : ftensor) : ftensor :=
  FTensor (shape_transpose (fshape x)) (fun b i j => fentry x b j i).

(** [x * self.scale] for a scale parameter holding the float [s]. *)
Definition ftensor_mul_scalar (x : ftensor) (s : Q) : ftensor :=
  FTensor (fshape x) (fun b c t => f32_mul (fentry x b c t) (f32_of_Q s)).

Definition ftensor_add (x y : ftensor) : result ftensor :=
  s <- broadcast (fshape x) (fshape y) ;;
  Ok (FTensor s (fun b c t =>
                   f32_add
                     (fentry x (bidx (dim0 (fshape x)) b)
                               (bidx (dim1 (fshape x)) c)
                               (bidx (dim2 (fshape x)) t))
                     (fentry y (bidx (dim0 (fshape y)) b)
                               (bidx (dim1 (fshape y)) c)
                               (bidx (dim2 (fshape y)) t)))).

(** A sum of float32 terms, taken in index order. *)
Definition fsum (f : Z -> f32) (n : Z) : f32 :=
  fold_left (fun acc k => f32_add acc (f k)) (range n)
            (SpecFloat.S754_zero false).

(** A [Linear] with the weights [weight] and the biases [bias], its sums
    taken in index order. *)
Definition dot_linear (weight : Linear -> Z -> Z -> f32)
  (bias : Linear -> Z -> f32) (lin : Linear) (x : ftensor) : result ftensor :=
  s <- shape_linear lin (fshape x) ;;
  Ok (FTensor s (fun b t o =>
                   f32_add
                     (fsum (fun k => f32_mul (fentry x b t k) (weight lin o k))
                           (in_features lin))
                     (bias lin o))).

Section Float32.

(** The imported layers and the [Linear] modules as functions on float32
    tensors, whatever they compute. *)
Variable layer_fn : layer -> ftensor -> result ftensor.
Variable linear_fn : Linear -> ftensor -> result ftensor.

#[local] Instance ftensor_ops : TensorOps ftensor := {|
  call := layer_fn;
  cat := ftensor_cat;
  transpose := ftensor_transpose;
  linear := linear_fn;
  mul_scalar := ftensor_mul_scalar;
  add := ftensor_add
|}.

End Float32.

(** Float32 tensors with the same entry everywhere, and a [Linear] with the
    same weight everywhere and no bias, for the examples. *)
Definition constant (s : shape) (v : f32) : ftensor :=
  FTensor s (fun _ _ _ => v).

Definition constant_linear (w : f32) : Linear -> ftensor -> result ftensor :=
  dot_linear (fun _ _ _ => w) (fun _ _ => SpecFloat.S754_zero false).

Definition identity_flayers (l : layer) (x : ftensor) : result ftensor :=
  Ok x.

(** * Properties *)

(** ** The error monad and Python lists *)

Lemma bind_Ok {A B : Type} (r : result A) (k : A -> result B) (b : B) :
  bind r k = Ok b -> exists a, r = Ok a /\ k a = Ok b.
Proof.
  destruct r as [a|e]; simpl; intros Hk.
  - exists a. split; [reflexivity | exact Hk].
  - discriminate Hk.
Qed.

Lemma bind_assoc {A B C : Type} (r : result A) (k : A -> result B)
  (k' : B -> result C) :
  bind (bind r k) k' = bind r (fun a => bind (k a) k').
Proof. destruct r; reflexivity. Qed.

Lemma range_length (n : Z) : List.length (range n) = Z.to_nat n.
Proof. unfold range. now rewrite length_map, length_seq. Qed.

Lemma fold_left_snoc {A B : Type} (f : B -> A) (l : list B) (acc : list A) :
  fold_left (fun m j => m ++ [f j]) l acc = acc ++ map f l.
Proof.
  revert acc. induction l as [|j l IH]; intros acc; simpl.
  - now rewrite app_nil_r.
  - rewrite IH, <- app_assoc. reflexivity.
Qed.

Lemma prod_from (l : list Z) (a : Z) : fold_left Z.mul l a = a * prod l.
Proof.
  unfold prod. revert a. induction l as [|r l IH]; intros a.
  - simpl. lia.
  - cbn [fold_left]. rewrite IH, (IH (1 * r)). lia.
Qed.

Lemma prod_cons (r : Z) (l : list Z) : prod (r :: l) = r * prod l.
Proof. unfold prod at 1. cbn [fold_left]. rewrite prod_from. lia. Qed.

Lemma prod_snoc (l : list Z) (r : Z) : prod (l ++ [r]) = prod l * r.
Proof.
  unfold prod at 1. rewrite fold_left_app. cbn [fold_left].
  reflexivity.
Qed.

(** A non-negative index inside the list reads that position. *)
Lemma py_getitem_nonneg {A : Type} (l : list A) (i : nat) (a : A) :
  nth_error l i = Some a -> py_getitem l (Z.of_nat i) = Ok a.
Proof.
  intros Hn. unfold py_getitem.
  assert (Hlt : (i < List.length l)%nat)
    by (apply nth_error_Some; congruence).
  destruct (Z.of_nat i <? 0) eqn:E; [lia|].
  replace ((Z.of_nat i <? 0) || (Z.of_nat (List.length l) <=? Z.of_nat i))
    with false by (symmetry; apply orb_false_iff; split; lia).
  now rewrite Nat2Z.id, Hn.
Qed.

(** [l[-1-i]] is the entry at position [length - 1 - i]. *)
Lemma py_getitem_back {A : Type} (l : list A) (i : nat) (a : A) :
  (i < List.length l)%nat ->
  nth_error l (List.length l - 1 - i) = Some a ->
  py_getitem l (-1 - Z.of_nat i) = Ok a.
Proof.
  intros Hlt Hn. unfold py_getitem.
  destruct (-1 - Z.of_nat i <? 0) eqn:E; [|lia].
  replace ((-1 - Z.of_nat i + Z.of_nat (List.length l) <? 0)
           || (Z.of_nat (List.length l)
               <=? -1 - Z.of_nat i + Z.of_nat (List.length l)))
    with false by (symmetry; apply orb_false_iff; split; lia).
  replace (Z.to_nat (-1 - Z.of_nat i + Z.of_nat (List.length l)))
    with (List.length l - 1 - i)%nat by lia.
  now rewrite Hn.
Qed.

(** Past either end the access raises. *)
Lemma py_getitem_out {A : Type} (l : list A) (i : Z) :
  i < - Z.of_nat (List.length l) \/ Z.of_nat (List.length l) <= i ->
  py_getitem l i = Raise IndexError.
Proof.
  intros Hout. unfold py_getitem.
  destruct (i <? 0) eqn:E.
  - destruct Hout as [Hout|Hout]; [|lia].
    replace (i + Z.of_nat (List.length l) <? 0) with true
      by (symmetry; apply Z.ltb_lt; lia).
    reflexivity.
  - destruct Hout as [Hout|Hout]; [lia|].
    replace (Z.of_nat (List.length l) <=? i) with true
      by (symmetry; apply Z.leb_le; lia).
    now rewrite orb_true_r.
Qed.

(** ** The constructors *)

Section ConstructionFacts.

Variable torch_nn : string -> option string.

Lemma add_residual_layers_app (c : Config) (dim : Z) (model : list layer) :
  add_residual_layers c dim model = model ++ residual_blocks c dim.
Proof. unfold add_residual_layers, residual_blocks. apply fold_left_snoc. Qed.

Lemma residual_blocks_length (c : Config) (dim : Z) :
  List.length (residual_blocks c dim) = Z.to_nat (n_residual_layers c).
Proof. unfold residual_blocks. now rewrite length_map, range_length. Qed.

(** The encoder's stage loop appends one stage per ratio and doubles [mult]
    at each. *)
Lemma enc_stages_closed (c : Config) (act : layer) (rs : list Z)
  (mult : Z) (model : list layer) :
  enc_stages c act rs mult model =
  (mult * 2 ^ Z.of_nat (List.length rs),
   model ++ encoder_stages c act mult rs).
Proof.
  revert mult model. induction rs as [|ratio rs IH]; intros mult model.
  - simpl. now rewrite Z.mul_1_r, app_nil_r.
  - cbn [enc_stages encoder_stages List.length].
    rewrite IH, add_residual_layers_app.
    rewrite Nat2Z.inj_succ, Z.pow_succ_r by lia.
    f_equal; [lia|].
    unfold encoder_stage, downsample. rewrite <- !app_assoc.
    replace (mult * n_filters c * 2) with (2 * mult * n_filters c) by lia.
    replace (ratio * 2) with (2 * ratio) by lia.
    replace (mult * 2) with (2 * mult) by lia.
    reflexivity.
Qed.

Lemma USEANetEncoder_init_closed (c : Config) (cls : string) :
  torch_nn (activation c) = Some cls ->
  USEANetEncoder_init torch_nn c =
  Ok {| enc_ratios := rev (ratios c);
        enc_hop_length := prod (rev (ratios c));
        enc_model := encoder_layers c (Act cls) |}.
Proof.
  intros Hact. unfold USEANetEncoder_init, getattr_nn. rewrite Hact.
  cbn [bind]. rewrite enc_stages_closed, length_rev.
  do 2 f_equal. unfold encoder_layers, lstm_layers, encoder_first,
    encoder_last, top_mult, n_stages.
  rewrite !Z.mul_1_l.
  destruct (lstm c =? 0); cbn [app]; rewrite <- ?app_assoc; reflexivity.
Qed.

Lemma stage_adaptation_supported (c : Config) (mult : Z) :
  supported (skip_connection_type c) ->
  stage_adaptation c mult = Ok (stage_adapter c mult).
Proof.
  unfold supported, stage_adaptation, stage_adapter.
  intros [Hs|Hs]; rewrite Hs; reflexivity.
Qed.

Lemma final_adaptation_supported (c : Config) :
  supported (skip_connection_type c) ->
  final_adaptation c = Ok (final_adapter c).
Proof.
  unfold supported, final_adaptation, final_adapter.
  intros [Hs|Hs]; rewrite Hs; reflexivity.
Qed.

Lemma final_adaptation_unsupported (c : Config) :
  ~ supported (skip_connection_type c) ->
  final_adaptation c = Raise UnrecognizedSkip.
Proof.
  unfold supported, final_adaptation. intros Hs.
  destruct (String.eqb_spec (skip_connection_type c) "cat_linear") as [E|_];
    [tauto|].
  destruct (String.eqb_spec (skip_connection_type c) "scaled_sum") as [E|_];
    [tauto|reflexivity].
Qed.

(** With a supported strategy the decoder's stage loop runs to its end and
    appends one stage and one adaptation layer per ratio. *)
Lemma dec_stages_closed (c : Config) (act : layer) (rs : list Z)
  (mult : Z) (model : list layer) (adapt : list adaptation) :
  supported (skip_connection_type c) ->
  exists mult',
    dec_stages c act rs mult model adapt =
    Ok (mult', model ++ decoder_stages c act mult rs,
        adapt ++ stage_adapters c mult rs).
Proof.
  intros Hs. revert mult model adapt.
  induction rs as [|ratio rs IH]; intros mult model adapt.
  - exists mult. simpl. now rewrite !app_nil_r.
  - cbn [dec_stages decoder_stages stage_adapters].
    rewrite stage_adaptation_supported by exact Hs. cbn [bind].
    rewrite add_residual_layers_app.
    destruct (IH (mult / 2)
                (((model ++ [act; SConvTranspose1d (mult * n_filters c)
                                    (mult * n_filters c / 2) (ratio * 2) ratio
                                    (opts c)])
                  ++ residual_blocks c (mult * n_filters c / 2)))
                (adapt ++ [stage_adapter c mult])) as [m' Hm'].
    exists m'. rewrite Hm'. unfold decoder_stage, upsample.
    rewrite <- !app_assoc. reflexivity.
Qed.

(** With any other strategy the loop, when it has a stage to build, raises
    at the first one. *)
Lemma dec_stages_unsupported (c : Config) (act : layer) (ratio : Z)
  (rs : list Z) (mult : Z) (model : list layer) (adapt : list adaptation) :
  ~ supported (skip_connection_type c) ->
  dec_stages c act (ratio :: rs) mult model adapt = Raise UnrecognizedSkip.
Proof.
  unfold supported. intros Hs. cbn [dec_stages]. unfold stage_adaptation.
  destruct (String.eqb_spec (skip_connection_type c) "cat_linear") as [E|_];
    [tauto|].
  destruct (String.eqb_spec (skip_connection_type c) "scaled_sum") as [E|_];
    [tauto|reflexivity].
Qed.

Lemma USEANetDecoder_init_closed (c : Config) (cls : string)
  (final : option layer) :
  torch_nn (activation c) = Some cls ->
  supported (skip_connection_type c) ->
  match final_activation c with
  | Some name => exists fcls, torch_nn name = Some fcls /\ final = Some (Act fcls)
  | None => final = None
  end ->
  USEANetDecoder_init torch_nn c =
  Ok {| dec_ratios := ratios c;
        dec_hop_length := prod (ratios c);
        dec_skip_connection_type := skip_connection_type c;
        dec_model := decoder_layers c (Act cls) ++ final_layers final;
        adaptation_layers :=
          stage_adapters c (top_mult c) (ratios c) ++ [final_adapter c] |}.
Proof.
  intros Hact Hs Hfin. unfold USEANetDecoder_init, getattr_nn.
  rewrite Hact. cbn [bind].
  match goal with
  | |- context [dec_stages c ?a ?rs ?m ?md ?ad] =>
      destruct (dec_stages_closed c a rs m md ad Hs) as [m' Hm']
  end.
  rewrite Hm'. cbn [bind].
  rewrite final_adaptation_supported by exact Hs. cbn [bind].
  unfold decoder_layers, lstm_layers, decoder_first, decoder_last,
    top_mult, n_stages.
  destruct (final_activation c) as [name|].
  - destruct Hfin as [fcls [Hf ->]]. rewrite Hf. cbn [bind final_layers].
    destruct (lstm c =? 0); cbn [app]; rewrite <- ?app_assoc; reflexivity.
  - subst final. cbn [bind final_layers]. rewrite app_nil_r.
    destruct (lstm c =? 0); cbn [app]; rewrite <- ?app_assoc; reflexivity.
Qed.

End ConstructionFacts.

(** ** What construction accepts and what it builds *)

Section Constructed.

Variable torch_nn : string -> option string.

Lemma supported_dec (sk : string) : {supported sk} + {~ supported sk}.
Proof.
  unfold supported.
  destruct (string_dec sk "cat_linear") as [E|E]; [left; now left|].
  destruct (string_dec sk "scaled_sum") as [E'|E']; [left; now right|].
  right. tauto.
Qed.

Lemma USEANetDecoder_init_unsupported (c : Config) (cls : string) :
  torch_nn (activation c) = Some cls ->
  ~ supported (skip_connection_type c) ->
  USEANetDecoder_init torch_nn c = Raise UnrecognizedSkip.
Proof.
  intros Hact Hs. unfold USEANetDecoder_init, getattr_nn.
  rewrite Hact. cbn [bind].
  destruct (ratios c) as [|ratio rs].
  - cbn [dec_stages bind].
    now rewrite final_adaptation_unsupported by exact Hs.
  - now rewrite dec_stages_unsupported by exact Hs.
Qed.

Lemma USEANetDecoder_init_no_activation (c : Config) :
  torch_nn (activation c) = None ->
  USEANetDecoder_init torch_nn c = Raise (AttributeError (activation c)).
Proof.
  intros Hact. unfold USEANetDecoder_init, getattr_nn. now rewrite Hact.
Qed.

(** A decoder that was built has the closed form. *)
Lemma USEANetDecoder_init_Ok (c : Config) (self : USEANetDecoder) :
  USEANetDecoder_init torch_nn c = Ok self ->
  exists cls final,
    torch_nn (activation c) = Some cls /\
    supported (skip_connection_type c) /\
    (match final_activation c with
     | Some name =>
         exists fcls, torch_nn name = Some fcls /\ final = Some (Act fcls)
     | None => final = None
     end) /\
    self =
    {| dec_ratios := ratios c;
       dec_hop_length := prod (ratios c);
       dec_skip_connection_type := skip_connection_type c;
       dec_model := decoder_layers c (Act cls) ++ final_layers final;
       adaptation_layers :=
         stage_adapters c (top_mult c) (ratios c) ++ [final_adapter c] |}.
Proof.
  intros Hinit.
  destruct (torch_nn (activation c)) as [cls|] eqn:Hact;
    [|rewrite USEANetDecoder_init_no_activation in Hinit by exact Hact;
      discriminate Hinit].
  destruct (supported_dec (skip_connection_type c)) as [Hs|Hs];
    [|rewrite (USEANetDecoder_init_unsupported c cls Hact Hs) in Hinit;
      discriminate Hinit].
  destruct (final_activation c) as [name|] eqn:Hfa.
  - destruct (torch_nn name) as [fcls|] eqn:Hf.
    + exists cls, (Some (Act fcls)). repeat split; try assumption.
      * exists fcls. now split.
      * rewrite (USEANetDecoder_init_closed torch_nn c cls (Some (Act fcls)))
          in Hinit; [congruence|assumption|assumption|].
        rewrite Hfa. exists fcls. now split.
    + exfalso. revert Hinit. unfold USEANetDecoder_init, getattr_nn.
      rewrite Hact. cbn [bind].
      match goal with
      | |- context [dec_stages c ?a ?rs ?m ?md ?ad] =>
          destruct (dec_stages_closed c a rs m md ad Hs) as [m' Hm']
      end.
      rewrite Hm'. cbn [bind].
      rewrite final_adaptation_supported by exact Hs. cbn [bind].
      rewrite Hfa, Hf. cbn [bind]. discriminate.
  - exists cls, None. repeat split; try assumption.
    rewrite (USEANetDecoder_init_closed torch_nn c cls None) in Hinit;
      [congruence|assumption|assumption|].
    now rewrite Hfa.
Qed.

Lemma USEANetEncoder_init_Ok (c : Config) (self : USEANetEncoder) :
  USEANetEncoder_init torch_nn c = Ok self ->
  exists cls,
    torch_nn (activation c) = Some cls /\
    self = {| enc_ratios := rev (ratios c);
              enc_hop_length := prod (rev (ratios c));
              enc_model := encoder_layers c (Act cls) |}.
Proof.
  intros Hinit.
  destruct (torch_nn (activation c)) as [cls|] eqn:Hact.
  - exists cls. split; [reflexivity|].
    rewrite (USEANetEncoder_init_closed torch_nn c cls Hact) in Hinit.
    congruence.
  - revert Hinit. unfold USEANetEncoder_init, getattr_nn.
    rewrite Hact. discriminate.
Qed.

Lemma stage_adapters_length (c : Config) (mult : Z) (rs : list Z) :
  List.length (stage_adapters c mult rs) = List.length rs.
Proof.
  revert mult. induction rs as [|r rs IH]; intros mult; simpl;
    [reflexivity | now rewrite IH].
Qed.

End Constructed.

(** In the statements below [torch_nn] is the namespace the activation
    names are looked up in. *)

(** The latent tensor of the encoder's loop is its layers applied in list
    order. *)
Lemma enc_loop_latent {T : Type} `{TensorOps T} (ls : list layer) (x : T)
  (acts : list T) :
  (st <- enc_loop ls x acts ;; Ok (fst st)) = call_all ls x.
Proof.
  revert x acts. induction ls as [|l ls IH]; intros x acts; [reflexivity|].
  cbn [enc_loop call_all].
  destruct (call l x) as [y|e]; [|reflexivity]. cbn [bind]. apply IH.
Qed.

(** C8.  The encoder walks the supplied ratios in reverse order.  Its layer
    list is the first convolution, then one stage per ratio, then the
    optional recurrent layer, the last nonlinearity and the last
    convolution; a stage is [n_residual_layers] residual blocks, block [j]
    with dilation [dilation_base ^ j], then a nonlinearity, then a
    convolution of stride [ratio] and kernel size [2 * ratio] from
    [mult * n_filters] to [2 * mult * n_filters] channels, [mult] starting
    at 1 and doubling from stage to stage.  [forward] applies the layers of
    that list in order. *)
Theorem encoder_stage_structure {T : Type} `{TensorOps T}
  (torch_nn : string -> option string) (c : Config) (cls : string) :
  torch_nn (activation c) = Some cls ->
  exists self,
    USEANetEncoder_init torch_nn c = Ok self /\
    enc_ratios self = rev (ratios c) /\
    enc_model self =
      [encoder_first c]
      ++ encoder_stages c (Act cls) 1 (enc_ratios self)
      ++ lstm_layers c (2 ^ Z.of_nat (List.length (ratios c)))
      ++ [Act cls; encoder_last c] /\
    (forall mult ratio rs,
        encoder_stages c (Act cls) mult (ratio :: rs) =
        map (fun j => SEANetResnetBlock (mult * n_filters c)
                        [residual_kernel_size c; 1] [dilation_base c ^ j; 1]
                        (activation c) (opts c))
            (range (n_residual_layers c))
        ++ [Act cls;
            SConv1d (mult * n_filters c) (2 * mult * n_filters c)
                    (2 * ratio) ratio (opts c)]
        ++ encoder_stages c (Act cls) (2 * mult) rs) /\
    (forall x : T,
        (st <- USEANetEncoder_forward self x ;; Ok (fst st)) =
        call_all (enc_model self) x).
Proof.
  intros Hact. eexists. split.
  - apply USEANetEncoder_init_closed. exact Hact.
  - cbn [enc_ratios enc_model]. split; [reflexivity|].
    split; [reflexivity|]. split.
    + intros mult ratio rs. cbn [encoder_stages].
      unfold encoder_stage, residual_blocks, downsample.
      now rewrite <- app_assoc.
    + intros x. unfold USEANetEncoder_forward. cbn [enc_model].
      apply enc_loop_latent.
Qed.

Lemma encoder_stage_structure_witness :
  exists self,
    USEANetEncoder_init torch_nn_sample default_config = Ok self /\
    enc_ratios self = [2; 4; 5; 8] /\
    List.length (enc_model self) = 16%nat.
Proof.
  destruct (@encoder_stage_structure graph graph_ops torch_nn_sample
              default_config "ELU" eq_refl) as [self [Hinit [Hr [Hm _]]]].
  exists self. split; [exact Hinit|]. split; [exact Hr|].
  rewrite Hm, Hr. reflexivity.
Defined.

(** C4.  With [skip_connection_type] one of 'cat_linear' and 'scaled_sum'
    the decoder's constructor succeeds: once the activation name resolves
    it returns the decoder (or, when a final activation is named that does
    not resolve, raises that name's attribute error), and in no case does
    it raise the skip-type error.  With any other value the constructor
    raises: the skip-type error as soon as the activation name resolves,
    the attribute error of the activation name otherwise. *)
Theorem skip_connection_type_checked (torch_nn : string -> option string)
  (c : Config) :
  (supported (skip_connection_type c) ->
   (forall cls, torch_nn (activation c) = Some cls ->
      match final_activation c with
      | None =>
          USEANetDecoder_init torch_nn c = Ok (decoder_built c cls None)
      | Some name =>
          match torch_nn name with
          | Some fcls =>
              USEANetDecoder_init torch_nn c
              = Ok (decoder_built c cls (Some (Act fcls)))
          | None =>
              USEANetDecoder_init torch_nn c = Raise (AttributeError name)
          end
      end) /\
   USEANetDecoder_init torch_nn c <> Raise UnrecognizedSkip)
  /\
  (~ supported (skip_connection_type c) ->
   (forall cls, torch_nn (activation c) = Some cls ->
      USEANetDecoder_init torch_nn c = Raise UnrecognizedSkip) /\
   (torch_nn (activation c) = None ->
      USEANetDecoder_init torch_nn c = Raise (AttributeError (activation c))) /\
   exists e, USEANetDecoder_init torch_nn c = Raise e).
Proof.
  assert (Hbuilt : supported (skip_connection_type c) ->
    forall cls, torch_nn (activation c) = Some cls ->
      match final_activation c with
      | None =>
          USEANetDecoder_init torch_nn c = Ok (decoder_built c cls None)
      | Some name =>
          match torch_nn name with
          | Some fcls =>
              USEANetDecoder_init torch_nn c
              = Ok (decoder_built c cls (Some (Act fcls)))
          | None =>
              USEANetDecoder_init torch_nn c = Raise (AttributeError name)
          end
      end).
  { intros Hs cls Hact. destruct (final_activation c) as [name|] eqn:Hfa.
    - destruct (torch_nn name) as [fcls|] eqn:Hf.
      + apply (USEANetDecoder_init_closed torch_nn c cls (Some (Act fcls))
                 Hact Hs).
        rewrite Hfa. exists fcls. now split.
      + unfold USEANetDecoder_init, getattr_nn. rewrite Hact. cbn [bind].
        match goal with
        | |- context [dec_stages c ?a ?rs ?m ?md ?ad] =>
            destruct (dec_stages_closed c a rs m md ad Hs) as [m' Hm']
        end.
        rewrite Hm'. cbn [bind].
        rewrite final_adaptation_supported by exact Hs. cbn [bind].
        now rewrite Hfa, Hf.
    - apply (USEANetDecoder_init_closed torch_nn c cls None Hact Hs).
      now rewrite Hfa. }
  split; intros Hs.
  - split; [exact (Hbuilt Hs)|].
    destruct (torch_nn (activation c)) as [cls|] eqn:Hact.
    + specialize (Hbuilt Hs cls eq_refl).
      destruct (final_activation c) as [name|].
      * destruct (torch_nn name) as [fcls|]; rewrite Hbuilt; discriminate.
      * rewrite Hbuilt. discriminate.
    + rewrite USEANetDecoder_init_no_activation by exact Hact. discriminate.
  - split; [|split].
    + intros cls Hact.
      now apply (USEANetDecoder_init_unsupported torch_nn c cls).
    + apply USEANetDecoder_init_no_activation.
    + destruct (torch_nn (activation c)) as [cls|] eqn:Hact.
      * exists UnrecognizedSkip.
        now apply (USEANetDecoder_init_unsupported torch_nn c cls).
      * exists (AttributeError (activation c)).
        now apply USEANetDecoder_init_no_activation.
Qed.

Lemma skip_connection_type_checked_witness :
  USEANetDecoder_init torch_nn_sample
    (config_with [8; 5; 4; 2] "ELU" None "scaled_sum")
  = Ok (decoder_built (config_with [8; 5; 4; 2] "ELU" None "scaled_sum")
          "ELU" None)
  /\
  USEANetDecoder_init torch_nn_sample
    (config_with [8; 5; 4; 2] "ELU" (Some "Tanh") "cat_linear")
  = Ok (decoder_built (config_with [8; 5; 4; 2] "ELU" (Some "Tanh")
                         "cat_linear")
          "ELU" (Some (Act "Tanh")))
  /\
  USEANetDecoder_init torch_nn_sample
    (config_with [8; 5; 4; 2] "ELU" None "sum") = Raise UnrecognizedSkip.
Proof.
  split; [|split].
  - exact (proj1 (proj1 (skip_connection_type_checked torch_nn_sample
                           (config_with [8; 5; 4; 2] "ELU" None "scaled_sum"))
                    (or_intror eq_refl))
             "ELU" eq_refl).
  - exact (proj1 (proj1 (skip_connection_type_checked torch_nn_sample
                           (config_with [8; 5; 4; 2] "ELU" (Some "Tanh")
                              "cat_linear"))
                    (or_introl eq_refl))
             "ELU" eq_refl).
  - assert (Hns : ~ supported
                      (skip_connection_type
                         (config_with [8; 5; 4; 2] "ELU" None "sum")))
      by (intros [H|H]; discriminate H).
    exact (proj1 (proj2 (skip_connection_type_checked torch_nn_sample
                           (config_with [8; 5; 4; 2] "ELU" None "sum"))
                    Hns)
             "ELU" eq_refl).
Defined.

(** C5.  A decoder built with a supported strategy has exactly one
    adaptation layer per upsampling stage, in stage order, followed by the
    one built after the last convolution: [n + 1] layers for [n] ratios. *)
Theorem adaptation_layers_count (torch_nn : string -> option string)
  (c : Config) (self : USEANetDecoder) :
  supported (skip_connection_type c) ->
  USEANetDecoder_init torch_nn c = Ok self ->
  adaptation_layers self =
    stage_adapters c (2 ^ Z.of_nat (List.length (ratios c))) (ratios c)
    ++ [final_adapter c] /\
  List.length (stage_adapters c (2 ^ Z.of_nat (List.length (ratios c)))
                 (ratios c)) = List.length (ratios c) /\
  List.length (adaptation_layers self) = (List.length (ratios c) + 1)%nat.
Proof.
  intros _ Hinit.
  destruct (USEANetDecoder_init_Ok torch_nn c self Hinit)
    as [cls [final [_ [_ [_ ->]]]]].
  cbn [adaptation_layers]. unfold top_mult, n_stages.
  split; [reflexivity|]. split.
  - apply stage_adapters_length.
  - rewrite length_app, stage_adapters_length. reflexivity.
Qed.


Lemma adaptation_layers_count_witness :
  exists self,
    USEANetDecoder_init torch_nn_sample default_config = Ok self /\
    List.length (adaptation_layers self) = 5%nat.
Proof.
  pose proof (USEANetDecoder_init_closed torch_nn_sample default_config
                "ELU" None eq_refl (or_introl eq_refl) eq_refl) as Hinit.
  eexists. split; [exact Hinit|].
  exact (proj2 (proj2 (adaptation_layers_count torch_nn_sample default_config
                         _ (or_introl eq_refl) Hinit))).
Defined.

(** ** The forward loops *)

Section ForwardFacts.

Context {T : Type} `{TensorOps T}.

Lemma call_all_app (l1 l2 : list layer) (x : T) :
  call_all (l1 ++ l2) x = x' <- call_all l1 x ;; call_all l2 x'.
Proof.
  revert x. induction l1 as [|l l1 IH]; intros x; simpl; [reflexivity|].
  destruct (call l x) as [y|e]; simpl; [apply IH | reflexivity].
Qed.

Lemma enc_loop_app (l1 l2 : list layer) (x : T) (acts : list T) :
  enc_loop (l1 ++ l2) x acts =
  st <- enc_loop l1 x acts ;; enc_loop l2 (fst st) (snd st).
Proof.
  revert x acts. induction l1 as [|l l1 IH]; intros x acts; simpl;
    [reflexivity|].
  destruct (call l x) as [y|e]; simpl; [apply IH | reflexivity].
Qed.

Lemma dec_loop_app (self : USEANetDecoder) (acts : list T)
  (l1 l2 : list layer) (x : T) (i : Z) :
  dec_loop self acts (l1 ++ l2) x i =
  st <- dec_loop self acts l1 x i ;; dec_loop self acts l2 (fst st) (snd st).
Proof.
  revert x i. induction l1 as [|l l1 IH]; intros x i; simpl; [reflexivity|].
  destruct (String.eqb (class_name l) "ELU").
  - destruct (call l x) as [y|e]; simpl; [|reflexivity].
    destruct (fuse self acts i y) as [y'|e]; simpl; [apply IH | reflexivity].
  - destruct (call l x) as [y|e]; simpl; [apply IH | reflexivity].
Qed.

(** Over layers of other classes both loops only apply the layers. *)
Lemma enc_loop_no_ELU (ls : list layer) (x : T) (acts : list T) :
  no_ELU ls ->
  enc_loop ls x acts = x' <- call_all ls x ;; Ok (x', acts).
Proof.
  intros Hno. revert x. induction Hno as [|l ls Hl _ IH]; intros x; simpl;
    [reflexivity|].
  apply String.eqb_neq in Hl. rewrite Hl.
  destruct (call l x) as [y|e]; simpl; [apply IH | reflexivity].
Qed.

Lemma dec_loop_no_ELU (self : USEANetDecoder) (acts : list T)
  (ls : list layer) (x : T) (i : Z) :
  no_ELU ls ->
  dec_loop self acts ls x i = x' <- call_all ls x ;; Ok (x', i).
Proof.
  intros Hno. revert x. induction Hno as [|l ls Hl _ IH]; intros x; simpl;
    [reflexivity|].
  apply String.eqb_neq in Hl. rewrite Hl.
  destruct (call l x) as [y|e]; simpl; [apply IH | reflexivity].
Qed.

Lemma no_ELU_app (l1 l2 : list layer) :
  no_ELU l1 -> no_ELU l2 -> no_ELU (l1 ++ l2).
Proof. unfold no_ELU. intros H1 H2. apply Forall_app. now split. Qed.

Lemma no_ELU_residual_blocks (c : Config) (dim : Z) :
  no_ELU (residual_blocks c dim).
Proof.
  unfold no_ELU, residual_blocks. apply Forall_map, Forall_forall.
  intros j _. discriminate.
Qed.

Lemma no_ELU_lstm_layers (c : Config) (mult : Z) :
  no_ELU (lstm_layers c mult).
Proof.
  unfold no_ELU, lstm_layers. destruct (lstm c =? 0); repeat constructor.
  discriminate.
Qed.

Lemma no_ELU_final_layers (final : option layer) :
  match final with
  | Some l => class_name l <> "ELU"
  | None => True
  end ->
  no_ELU (final_layers final).
Proof.
  unfold no_ELU. destruct final as [l|]; intros Hf; repeat constructor.
  exact Hf.
Qed.

(** The source's index arithmetic and the positions of the closed form. *)
Lemma py_getitem_consumed {A : Type} (acts : list A) (i : nat) :
  py_getitem acts (-1 - Z.of_nat i) = consumed acts i.
Proof.
  unfold consumed. destruct (Nat.ltb_spec i (List.length acts)) as [Hlt|Hge].
  - destruct (nth_error acts (List.length acts - 1 - i)) as [a|] eqn:Hn.
    + now apply py_getitem_back.
    + apply nth_error_None in Hn. lia.
  - apply py_getitem_out. left. lia.
Qed.

Lemma py_getitem_adapter_at (adapt : list adaptation) (i : nat) :
  py_getitem adapt (Z.of_nat i) = adapter_at adapt i.
Proof.
  unfold adapter_at. destruct (nth_error adapt i) as [ad|] eqn:Hn.
  - now apply py_getitem_nonneg.
  - apply py_getitem_out. right. apply nth_error_None in Hn. lia.
Qed.

Lemma fuse_fusion_point (self : USEANetDecoder) (acts : list T) (i : nat)
  (x : T) :
  fuse self acts (Z.of_nat i) x = fusion_point self acts i x.
Proof.
  unfold fuse, fusion_point, fusion.
  rewrite py_getitem_consumed, py_getitem_adapter_at.
  destruct (String.eqb (dec_skip_connection_type self) "cat_linear").
  - destruct (consumed acts i) as [a|e]; simpl; [|reflexivity].
    destruct (cat x a) as [y|e]; reflexivity.
  - reflexivity.
Qed.

End ForwardFacts.

(** ** The encoder's captures *)

Section EncoderFacts.

Context {T : Type} `{TensorOps T}.

Lemma enc_loop_stage (c : Config) (mult ratio : Z) (x : T) (acts : list T) :
  enc_loop (encoder_stage c (Act "ELU") mult ratio) x acts =
  encoder_stage_forward c (Act "ELU") mult ratio (x, acts).
Proof.
  unfold encoder_stage, encoder_stage_forward.
  rewrite enc_loop_app, enc_loop_no_ELU by apply no_ELU_residual_blocks.
  cbn [fst snd]. rewrite bind_assoc.
  destruct (call_all (residual_blocks c (mult * n_filters c)) x) as [y|e];
    [|reflexivity].
  cbn [bind fst snd enc_loop class_name downsample].
  destruct (call (Act "ELU") y) as [a|e]; [|reflexivity].
  cbn [bind String.eqb Ascii.eqb Bool.eqb].
  destruct (call _ a) as [y'|e]; reflexivity.
Qed.

Lemma enc_loop_stages (c : Config) (mult : Z) (rs : list Z) (x : T)
  (acts : list T) :
  enc_loop (encoder_stages c (Act "ELU") mult rs) x acts =
  encoder_stages_forward c (Act "ELU") mult rs (x, acts).
Proof.
  revert mult x acts. induction rs as [|ratio rs IH]; intros mult x acts;
    [reflexivity|].
  cbn [encoder_stages encoder_stages_forward].
  rewrite enc_loop_app, enc_loop_stage.
  destruct (encoder_stage_forward c (Act "ELU") mult ratio (x, acts))
    as [[y acts']|e]; [|reflexivity].
  cbn [bind fst snd]. apply IH.
Qed.

(** With the class ELU the loop over the encoder's list is the pipeline
    that captures after every nonlinearity. *)
Lemma enc_loop_encoder_layers (c : Config) (x : T) :
  enc_loop (encoder_layers c (Act "ELU")) x [] =
  encoder_forward c (Act "ELU") x.
Proof.
  unfold encoder_layers, encoder_forward.
  cbn [app enc_loop class_name encoder_first].
  destruct (call _ x) as [x0|e]; [|reflexivity].
  cbn [bind String.eqb Ascii.eqb Bool.eqb].
  rewrite enc_loop_app, enc_loop_stages.
  destruct (encoder_stages_forward c (Act "ELU") 1 (rev (ratios c)) (x0, []))
    as [[x1 acts]|e]; [|reflexivity].
  cbn [bind fst snd].
  rewrite enc_loop_app, enc_loop_no_ELU by apply no_ELU_lstm_layers.
  rewrite bind_assoc.
  destruct (call_all (lstm_layers c (top_mult c)) x1) as [x2|e];
    [|reflexivity].
  cbn [bind fst snd enc_loop class_name encoder_last].
  destruct (call (Act "ELU") x2) as [a|e]; [|reflexivity].
  cbn [bind String.eqb Ascii.eqb Bool.eqb].
  destruct (call _ a) as [z|e]; reflexivity.
Qed.

(** Each stage that returns has appended one capture. *)
Lemma encoder_stages_forward_length (c : Config) (act : layer) (mult : Z)
  (rs : list Z) (st st' : T * list T) :
  encoder_stages_forward c act mult rs st = Ok st' ->
  List.length (snd st') = (List.length (snd st) + List.length rs)%nat.
Proof.
  revert mult st. induction rs as [|ratio rs IH]; intros mult st Hrun.
  - simpl in Hrun. injection Hrun as <-. simpl. lia.
  - cbn [encoder_stages_forward] in Hrun.
    apply bind_Ok in Hrun. destruct Hrun as [st1 [Hstage Hrest]].
    apply IH in Hrest. rewrite Hrest. cbn [List.length].
    unfold encoder_stage_forward in Hstage.
    apply bind_Ok in Hstage. destruct Hstage as [y [_ Hstage]].
    apply bind_Ok in Hstage. destruct Hstage as [a [_ Hstage]].
    apply bind_Ok in Hstage. destruct Hstage as [y' [_ Hstage]].
    injection Hstage as <-. cbn [snd]. rewrite length_app. simpl. lia.
Qed.

Lemma encoder_forward_length (c : Config) (act : layer) (x z : T)
  (acts : list T) :
  encoder_forward c act x = Ok (z, acts) ->
  List.length acts = (List.length (ratios c) + 1)%nat.
Proof.
  unfold encoder_forward. intros Hrun.
  apply bind_Ok in Hrun. destruct Hrun as [x0 [_ Hrun]].
  apply bind_Ok in Hrun. destruct Hrun as [st [Hst Hrun]].
  apply bind_Ok in Hrun. destruct Hrun as [x2 [_ Hrun]].
  apply bind_Ok in Hrun. destruct Hrun as [a [_ Hrun]].
  apply bind_Ok in Hrun. destruct Hrun as [z' [_ Hrun]].
  injection Hrun as _ <-.
  apply encoder_stages_forward_length in Hst. cbn [snd List.length] in Hst.
  rewrite length_app, Hst, length_rev. simpl. lia.
Qed.

(** No layer raising, the pipelines return. *)
Hypothesis call_total : forall (l : layer) (x : T), exists y, call l x = Ok y.

Lemma call_all_total (ls : list layer) (x : T) :
  exists y, call_all ls x = Ok y.
Proof.
  revert x. induction ls as [|l ls IH]; intros x; simpl.
  - now exists x.
  - destruct (call_total l x) as [y ->]. simpl. apply IH.
Qed.

Lemma encoder_stages_forward_total (c : Config) (act : layer) (mult : Z)
  (rs : list Z) (st : T * list T) :
  exists st', encoder_stages_forward c act mult rs st = Ok st'.
Proof.
  revert mult st. induction rs as [|ratio rs IH]; intros mult st.
  - now exists st.
  - cbn [encoder_stages_forward]. unfold encoder_stage_forward.
    destruct (call_all_total (residual_blocks c (mult * n_filters c)) (fst st))
      as [y ->].
    cbn [bind]. destruct (call_total act y) as [a ->].
    cbn [bind]. destruct (call_total (downsample c mult ratio) a) as [y' ->].
    cbn [bind]. apply IH.
Qed.

Lemma encoder_forward_total (c : Config) (act : layer) (x : T) :
  exists z acts, encoder_forward c act x = Ok (z, acts).
Proof.
  unfold encoder_forward.
  destruct (call_total (encoder_first c) x) as [x0 ->]. cbn [bind].
  destruct (encoder_stages_forward_total c act 1 (rev (ratios c)) (x0, []))
    as [st ->].
  cbn [bind].
  destruct (call_all_total (lstm_layers c (top_mult c)) (fst st)) as [x2 ->].
  cbn [bind]. destruct (call_total act x2) as [a ->].
  cbn [bind]. destruct (call_total (encoder_last c) a) as [z ->].
  cbn [bind]. eauto.
Qed.

End EncoderFacts.

(** C1, as stated, fails: with [activation='ReLU'] the default encoder has
    four stages and returns no activation at all. *)
Lemma encoder_captures_counterexample :
  exists self z acts,
    USEANetEncoder_init torch_nn_sample
      (config_with [8; 5; 4; 2] "ReLU" None "cat_linear") = Ok self /\
    USEANetEncoder_forward self (GInput "x") = Ok (z, acts) /\
    acts = [] /\
    List.length acts <> (List.length [8; 5; 4; 2] + 1)%nat.
Proof.
  eexists. eexists. eexists.
  split; [vm_compute; reflexivity|].
  split; [vm_compute; reflexivity|].
  split; [reflexivity | discriminate].
Qed.

(** C1, amended.  When [activation] names the class ELU, and no layer
    raises, [USEANetEncoder.forward] returns the latent tensor and a list
    of exactly [n + 1] activations for [n] ratios: [forward] is the
    pipeline that captures the tensor right after the nonlinearity of each
    stage and right after the last nonlinearity. *)
Theorem encoder_captures {T : Type} `{TensorOps T}
  (torch_nn : string -> option string) (c : Config) (self : USEANetEncoder)
  (x : T) :
  (forall (l : layer) (y : T), exists y', call l y = Ok y') ->
  torch_nn (activation c) = Some "ELU" ->
  USEANetEncoder_init torch_nn c = Ok self ->
  USEANetEncoder_forward self x = encoder_forward c (Act "ELU") x /\
  exists z acts,
    USEANetEncoder_forward self x = Ok (z, acts) /\
    List.length acts = (List.length (ratios c) + 1)%nat.
Proof.
  intros Htotal Hact Hinit.
  rewrite (USEANetEncoder_init_closed torch_nn c "ELU" Hact) in Hinit.
  injection Hinit as <-.
  unfold USEANetEncoder_forward. cbn [enc_model].
  rewrite enc_loop_encoder_layers. split; [reflexivity|].
  destruct (encoder_forward_total Htotal c (Act "ELU") x) as [z [acts Hrun]].
  exists z, acts. split; [exact Hrun|].
  exact (encoder_forward_length c (Act "ELU") x z acts Hrun).
Qed.

Lemma encoder_captures_witness :
  exists self z acts,
    USEANetEncoder_init torch_nn_sample default_config = Ok self /\
    USEANetEncoder_forward self (GInput "x") = Ok (z, acts) /\
    List.length acts = 5%nat.
Proof.
  pose proof (USEANetEncoder_init_closed torch_nn_sample default_config "ELU"
                eq_refl) as Hinit.
  destruct (@encoder_captures graph graph_ops torch_nn_sample default_config
              _ (GInput "x") (fun l y => ex_intro _ (GCall l y) eq_refl)
              eq_refl Hinit)
    as [_ [z [acts [Hrun Hlen]]]].
  eexists. exists z, acts. split; [exact Hinit|]. split; assumption.
Defined.

(** ** The decoder's fusion points *)

Section DecoderFacts.

Context {T : Type} `{TensorOps T}.

(** One stage of the loop: the layer of class ELU is applied, the fusion
    follows at once, then the transposed convolution and the residual
    blocks; the counter has advanced by one. *)
Lemma dec_loop_stage (self : USEANetDecoder) (acts : list T) (c : Config)
  (mult ratio : Z) (rest : list layer) (x : T) (i : Z) :
  dec_loop self acts (decoder_stage c (Act "ELU") mult ratio ++ rest) x i =
  x <- call (Act "ELU") x ;;
  x <- fuse self acts i x ;;
  x <- call (upsample c mult ratio) x ;;
  x <- call_all (residual_blocks c (mult * n_filters c / 2)) x ;;
  dec_loop self acts rest x (i + 1).
Proof.
  unfold decoder_stage. rewrite <- app_assoc.
  cbn [app dec_loop class_name String.eqb Ascii.eqb Bool.eqb].
  destruct (call (Act "ELU") x) as [x1|e]; [|reflexivity]. cbn [bind].
  destruct (fuse self acts i x1) as [x2|e]; [|reflexivity]. cbn [bind].
  cbn [upsample class_name String.eqb Ascii.eqb Bool.eqb].
  destruct (call _ x2) as [x3|e]; [|reflexivity]. cbn [bind].
  rewrite dec_loop_app, dec_loop_no_ELU by apply no_ELU_residual_blocks.
  rewrite bind_assoc.
  destruct (call_all (residual_blocks c (mult * n_filters c / 2)) x3)
    as [x4|e]; reflexivity.
Qed.

Lemma dec_loop_stages (self : USEANetDecoder) (acts : list T) (c : Config)
  (mult : Z) (rs : list Z) (x : T) (i : nat) :
  dec_loop self acts (decoder_stages c (Act "ELU") mult rs) x (Z.of_nat i) =
  x' <- stages_forward self acts c (Act "ELU") mult rs i x ;;
  Ok (x', Z.of_nat (i + List.length rs)).
Proof.
  revert mult x i. induction rs as [|ratio rs IH]; intros mult x i.
  - simpl. now rewrite Nat.add_0_r.
  - cbn [decoder_stages stages_forward List.length].
    rewrite dec_loop_stage. unfold stage_forward.
    destruct (call (Act "ELU") x) as [x1|e]; [|reflexivity]. cbn [bind].
    rewrite <- fuse_fusion_point.
    destruct (fuse self acts (Z.of_nat i) x1) as [x2|e]; [|reflexivity].
    cbn [bind].
    destruct (call (upsample c mult ratio) x2) as [x3|e]; [|reflexivity].
    cbn [bind].
    destruct (call_all (residual_blocks c (mult * n_filters c / 2)) x3)
      as [x4|e]; [|reflexivity].
    cbn [bind].
    replace (Z.of_nat i + 1) with (Z.of_nat (S i)) by lia.
    rewrite IH. now replace (S i + List.length rs)%nat
                  with (i + S (List.length rs))%nat by lia.
Qed.

(** The whole loop, for the class ELU and a final activation of another
    class: the pipeline with fusion points [0 .. n], and the counter ends at
    [n + 1]. *)
Lemma dec_loop_decoder_layers (self : USEANetDecoder) (acts : list T)
  (c : Config) (final : option layer) (x : T) :
  no_ELU (final_layers final) ->
  dec_loop self acts (decoder_layers c (Act "ELU") ++ final_layers final) x 0 =
  x' <- decoder_forward self acts c (Act "ELU") final x ;;
  Ok (x', Z.of_nat (n_stages c + 1)).
Proof.
  intros Hfinal. unfold decoder_layers, decoder_forward.
  rewrite <- !app_assoc.
  cbn [app dec_loop class_name decoder_first String.eqb Ascii.eqb Bool.eqb].
  destruct (call _ x) as [x0|e]; [|reflexivity]. cbn [bind].
  rewrite dec_loop_app, dec_loop_no_ELU by apply no_ELU_lstm_layers.
  rewrite bind_assoc.
  destruct (call_all (lstm_layers c (top_mult c)) x0) as [x1|e];
    [|reflexivity].
  cbn [bind fst snd].
  rewrite dec_loop_app.
  pose proof (dec_loop_stages self acts c (top_mult c) (ratios c) x1 0)
    as Hstages.
  change (Z.of_nat 0) with 0 in Hstages. rewrite Hstages. clear Hstages.
  rewrite bind_assoc.
  destruct (stages_forward self acts c (Act "ELU") (top_mult c) (ratios c)
              0 x1) as [x2|e]; [|reflexivity].
  cbn [bind fst snd app dec_loop class_name String.eqb Ascii.eqb Bool.eqb].
  destruct (call (Act "ELU") x2) as [x3|e]; [|reflexivity]. cbn [bind].
  change (0 + List.length (ratios c))%nat with (n_stages c).
  rewrite fuse_fusion_point.
  destruct (fusion_point self acts (n_stages c) x3) as [x4|e]; [|reflexivity].
  cbn [bind decoder_last class_name String.eqb Ascii.eqb Bool.eqb].
  destruct (call _ x4) as [x5|e]; [|reflexivity]. cbn [bind].
  rewrite dec_loop_no_ELU by exact Hfinal.
  destruct (call_all (final_layers final) x5) as [x6|e]; [|reflexivity].
  cbn [bind]. do 2 f_equal. lia.
Qed.

End DecoderFacts.

(** C2, as stated, fails.  In a decoder with the one ratio 2, run on a graph
    input, the stage's loop fuses right after the nonlinearity and applies
    the transposed convolution to the fused tensor; the order of the claim
    would apply the transposed convolution first. *)
Lemma decoder_stage_order_counterexample :
  exists self,
    USEANetDecoder_init torch_nn_sample one_stage_config = Ok self /\
    dec_model self =
      [decoder_first one_stage_config; SLSTM 64 2]
      ++ decoder_stage one_stage_config (Act "ELU") 2 2
      ++ [Act "ELU"; decoder_last one_stage_config] /\
    let acts := [GInput "a0"; GInput "a1"] in
    let x := GInput "x" in
    let res := SEANetResnetBlock 32 [3; 1] [1; 1] "ELU" default_opts in
    let up := SConvTranspose1d 64 32 4 2 default_opts in
    let lin := {| in_features := 128; out_features := 64 |} in
    dec_loop self acts (decoder_stage one_stage_config (Act "ELU") 2 2) x 0 =
      Ok (GCall res
            (GCall up
               (GTranspose
                  (GLinear lin
                     (GTranspose (GCat (GCall (Act "ELU") x) (GInput "a1")))))),
          1) /\
    claimed_stage_forward self acts one_stage_config (Act "ELU") 2 2 0 x =
      Ok (GCall res
            (GTranspose
               (GLinear lin
                  (GTranspose
                     (GCat (GCall up (GCall (Act "ELU") x)) (GInput "a1")))))) /\
    dec_loop self acts (decoder_stage one_stage_config (Act "ELU") 2 2) x 0 <>
      (y <- claimed_stage_forward self acts one_stage_config (Act "ELU")
              2 2 0 x ;;
       Ok (y, 1)).
Proof.
  eexists. split; [vm_compute; reflexivity|].
  split; [vm_compute; reflexivity|].
  split; [vm_compute; reflexivity|].
  split; [vm_compute; reflexivity|].
  vm_compute. discriminate.
Qed.

(** C2, amended.  In a decoder built with the class ELU the list holds, for
    every ratio, a nonlinearity, a transposed convolution of stride [ratio]
    from [mult * n_filters] to [mult * n_filters / 2] channels, and the
    residual blocks; [forward] runs such a stage in the order nonlinearity,
    skip fusion at the current counter, transposed convolution, residual
    blocks, and goes on with the counter advanced by one. *)
Theorem decoder_stage_order {T : Type} `{TensorOps T}
  (torch_nn : string -> option string) (c : Config) (self : USEANetDecoder) :
  torch_nn (activation c) = Some "ELU" ->
  USEANetDecoder_init torch_nn c = Ok self ->
  (exists final,
      dec_model self =
        [decoder_first c]
        ++ lstm_layers c (2 ^ Z.of_nat (List.length (ratios c)))
        ++ decoder_stages c (Act "ELU") (2 ^ Z.of_nat (List.length (ratios c)))
             (ratios c)
        ++ [Act "ELU"; decoder_last c]
        ++ final_layers final) /\
  (forall mult ratio rs,
      decoder_stages c (Act "ELU") mult (ratio :: rs) =
      [Act "ELU";
       SConvTranspose1d (mult * n_filters c) (mult * n_filters c / 2)
                        (ratio * 2) ratio (opts c)]
      ++ residual_blocks c (mult * n_filters c / 2)
      ++ decoder_stages c (Act "ELU") (mult / 2) rs) /\
  (forall (acts : list T) mult ratio rs (rest : list layer) (x : T) (i : Z),
      dec_loop self acts
        (decoder_stages c (Act "ELU") mult (ratio :: rs) ++ rest) x i =
      x <- call (Act "ELU") x ;;
      x <- fuse self acts i x ;;
      x <- call (SConvTranspose1d (mult * n_filters c)
                   (mult * n_filters c / 2) (ratio * 2) ratio (opts c)) x ;;
      x <- call_all (residual_blocks c (mult * n_filters c / 2)) x ;;
      dec_loop self acts
        (decoder_stages c (Act "ELU") (mult / 2) rs ++ rest) x (i + 1)).
Proof.
  intros Hact Hinit.
  destruct (USEANetDecoder_init_Ok torch_nn c self Hinit)
    as [cls [final [Hcls [_ [_ ->]]]]].
  assert (cls = "ELU") as -> by congruence.
  split; [|split].
  - exists final. cbn [dec_model]. unfold decoder_layers, top_mult, n_stages.
    now rewrite <- !app_assoc.
  - intros mult ratio rs. cbn [decoder_stages]. unfold decoder_stage, upsample.
    now rewrite <- app_assoc.
  - intros acts mult ratio rs rest x i. cbn [decoder_stages].
    rewrite <- app_assoc. apply dec_loop_stage.
Qed.

Lemma decoder_stage_order_witness :
  exists self,
    USEANetDecoder_init torch_nn_sample one_stage_config = Ok self /\
    forall (acts : list graph) (x : graph),
      dec_loop self acts
        (decoder_stages one_stage_config (Act "ELU") 2 [2]
         ++ [Act "ELU"; decoder_last one_stage_config]) x 0 =
      x <- call (Act "ELU") x ;;
      x <- fuse self acts 0 x ;;
      x <- call (SConvTranspose1d 64 32 4 2 default_opts) x ;;
      x <- call_all (residual_blocks one_stage_config 32) x ;;
      dec_loop self acts [Act "ELU"; decoder_last one_stage_config] x 1.
Proof.
  pose proof (USEANetDecoder_init_closed torch_nn_sample one_stage_config
                "ELU" None eq_refl (or_introl eq_refl) eq_refl) as Hinit.
  eexists. split; [exact Hinit|].
  intros acts x.
  exact (proj2 (proj2 (@decoder_stage_order graph graph_ops torch_nn_sample
                         one_stage_config _ eq_refl Hinit))
           acts 2 2 [] [Act "ELU"; decoder_last one_stage_config] x 0).
Defined.

(** ** Counting the fusion points *)

Lemma count_ELU_app (l1 l2 : list layer) :
  count_ELU (l1 ++ l2) = (count_ELU l1 + count_ELU l2)%nat.
Proof. unfold count_ELU. now rewrite filter_app, length_app. Qed.

Lemma count_ELU_no_ELU (ls : list layer) :
  Forall (fun l => class_name l <> "ELU") ls -> count_ELU ls = 0%nat.
Proof.
  unfold count_ELU. induction 1 as [|l ls Hl _ IH]; simpl; [reflexivity|].
  apply String.eqb_neq in Hl. now rewrite Hl.
Qed.

Lemma count_ELU_decoder_stages (c : Config) (mult : Z) (rs : list Z) :
  count_ELU (decoder_stages c (Act "ELU") mult rs) = List.length rs.
Proof.
  revert mult. induction rs as [|ratio rs IH]; intros mult; [reflexivity|].
  cbn [decoder_stages List.length]. unfold decoder_stage.
  rewrite !count_ELU_app, IH.
  rewrite (count_ELU_no_ELU (residual_blocks c (mult * n_filters c / 2)))
    by apply no_ELU_residual_blocks.
  reflexivity.
Qed.

Lemma count_ELU_decoder_layers (c : Config) (final : option layer) :
  Forall (fun l => class_name l <> "ELU") (final_layers final) ->
  count_ELU (decoder_layers c (Act "ELU") ++ final_layers final) =
  (List.length (ratios c) + 1)%nat.
Proof.
  intros Hfinal. unfold decoder_layers.
  rewrite !count_ELU_app, count_ELU_decoder_stages.
  rewrite (count_ELU_no_ELU (lstm_layers c (top_mult c)))
    by apply no_ELU_lstm_layers.
  rewrite (count_ELU_no_ELU (final_layers final)) by exact Hfinal.
  cbn. lia.
Qed.

(** The counter moves by one at each layer of class ELU and at no other. *)
Lemma dec_loop_counter {T : Type} `{TensorOps T} (self : USEANetDecoder)
  (acts : list T) (model : list layer) (x x' : T) (i i' : Z) :
  dec_loop self acts model x i = Ok (x', i') ->
  i' = i + Z.of_nat (count_ELU model).
Proof.
  revert x i. induction model as [|l model IH]; intros x i Hrun.
  - simpl in Hrun. injection Hrun as _ <-. cbn. lia.
  - cbn [dec_loop] in Hrun. unfold count_ELU. cbn [filter].
    destruct (String.eqb (class_name l) "ELU").
    + apply bind_Ok in Hrun. destruct Hrun as [x1 [_ Hrun]].
      apply bind_Ok in Hrun. destruct Hrun as [x2 [_ Hrun]].
      apply IH in Hrun. rewrite Hrun. unfold count_ELU.
      cbn [List.length]. lia.
    + apply bind_Ok in Hrun. destruct Hrun as [x1 [_ Hrun]].
      apply IH in Hrun. exact Hrun.
Qed.

Lemma consumed_from_back {A : Type} (acts : list A) (i : nat) :
  consumed acts i = from_back acts i.
Proof.
  unfold consumed, from_back. rewrite nth_error_rev.
  replace (List.length acts - S i)%nat with (List.length acts - 1 - i)%nat
    by lia.
  destruct (i <? List.length acts)%nat; reflexivity.
Qed.

Lemma consumed_last_is_first {A : Type} (a : A) (rest : list A) :
  consumed (a :: rest) (List.length rest) = Ok a.
Proof.
  unfold consumed. cbn [List.length].
  replace (List.length rest <? S (List.length rest))%nat with true
    by (symmetry; apply Nat.ltb_lt; lia).
  replace (S (List.length rest) - 1 - List.length rest)%nat with 0%nat by lia.
  reflexivity.
Qed.

Lemma final_layers_resolved (torch_nn : string -> option string) (c : Config)
  (final : option layer) :
  final_not_ELU torch_nn c ->
  match final_activation c with
  | Some name => exists fcls, torch_nn name = Some fcls /\ final = Some (Act fcls)
  | None => final = None
  end ->
  Forall (fun l => class_name l <> "ELU") (final_layers final).
Proof.
  unfold final_not_ELU. destruct (final_activation c) as [name|].
  - intros Hne [fcls [Hf ->]]. repeat constructor. cbn. congruence.
  - intros _ ->. constructor.
Qed.

Lemma consumed_Ok {A : Type} (acts : list A) (i : nat) (a : A) :
  consumed acts i = Ok a <->
  (i < List.length acts)%nat /\
  nth_error acts (List.length acts - 1 - i) = Some a.
Proof.
  unfold consumed. destruct (Nat.ltb_spec i (List.length acts)) as [Hlt|Hge].
  - destruct (nth_error acts (List.length acts - 1 - i)) as [a'|].
    + split; [intros [= ->]; now split | intros [_ [= ->]]; reflexivity].
    + split; [discriminate | intros [_ Hn]; discriminate Hn].
  - split; [discriminate | intros [Hlt _]; lia].
Qed.

(** C3, as stated, fails.  The one-stage decoder with a [Tanh] output
    activation meets three nonlinearities; its counter ends at 2, for the
    [Tanh] is no fusion point. *)
Lemma fusion_counter_counterexample :
  exists self x' i,
    USEANetDecoder_init torch_nn_sample tanh_config = Ok self /\
    dec_loop self [GInput "a0"; GInput "a1"] (dec_model self) (GInput "z") 0
    = Ok (x', i) /\
    i = 2 /\
    count_nonlinearities (dec_model self) = 3%nat /\
    i <> Z.of_nat (count_nonlinearities (dec_model self)).
Proof.
  eexists. eexists. eexists.
  split; [vm_compute; reflexivity|].
  split; [vm_compute; reflexivity|].
  split; [reflexivity|]. split; [reflexivity|].
  vm_compute. discriminate.
Qed.

(** C3, amended.  In a decoder built with the class ELU and a final
    activation that is absent or of another class, the counter [i] advances
    exactly once per layer whose class name is 'ELU', [n + 1] times over
    the whole list; the activation consumed at fusion point [i] is the one
    at position [length - 1 - i] of the list handed in, so that the list is
    consumed from its end backwards; [forward] is the pipeline with the
    fusion points [0 .. n], and when the list has [n + 1] entries the last
    fusion, [i = n], consumes the first of them. *)
Theorem fusion_index_discipline {T : Type} `{TensorOps T}
  (torch_nn : string -> option string) (c : Config) (self : USEANetDecoder)
  (acts : list T) :
  torch_nn (activation c) = Some "ELU" ->
  final_not_ELU torch_nn c ->
  USEANetDecoder_init torch_nn c = Ok self ->
  (forall model x i x' i',
      dec_loop self acts model x i = Ok (x', i') ->
      i' = i + Z.of_nat (count_ELU model)) /\
  count_ELU (dec_model self) = (List.length (ratios c) + 1)%nat /\
  (forall (i : nat) (a : T),
      py_getitem acts (-1 - Z.of_nat i) = Ok a <->
      (i < List.length acts)%nat /\
      nth_error acts (List.length acts - 1 - i) = Some a) /\
  (forall i : nat, py_getitem acts (-1 - Z.of_nat i) = from_back acts i) /\
  (forall (i : nat) (x : T),
      fuse self acts (Z.of_nat i) x =
      fusion (skip_connection_type c) (from_back acts i)
             (adapter_at (adaptation_layers self) i) x) /\
  (exists final,
      forall x,
        dec_loop self acts (dec_model self) x 0 =
        x' <- decoder_forward self acts c (Act "ELU") final x ;;
        Ok (x', Z.of_nat (List.length (ratios c) + 1))) /\
  (forall a rest,
      acts = a :: rest -> List.length rest = List.length (ratios c) ->
      py_getitem acts (-1 - Z.of_nat (List.length (ratios c))) = Ok a).
Proof.
  intros Hact Hfinal Hinit.
  destruct (USEANetDecoder_init_Ok torch_nn c self Hinit)
    as [cls [final [Hcls [_ [Hres ->]]]]].
  assert (cls = "ELU") as -> by congruence.
  pose proof (final_layers_resolved torch_nn c final Hfinal Hres) as Hno.
  split; [|split; [|split; [|split; [|split; [|split]]]]].
  - intros model x i x' i'. apply dec_loop_counter.
  - cbn [dec_model]. now apply count_ELU_decoder_layers.
  - intros i a. rewrite py_getitem_consumed. apply consumed_Ok.
  - intros i. now rewrite py_getitem_consumed, consumed_from_back.
  - intros i x. rewrite fuse_fusion_point. unfold fusion_point.
    now rewrite consumed_from_back.
  - exists final. intros x. cbn [dec_model].
    now apply dec_loop_decoder_layers.
  - intros a rest -> Hlen. rewrite py_getitem_consumed, <- Hlen.
    apply consumed_last_is_first.
Qed.

Lemma fusion_index_discipline_witness :
  exists self,
    USEANetDecoder_init torch_nn_sample tanh_config = Ok self /\
    count_ELU (dec_model self) = 2%nat /\
    py_getitem [GInput "a0"; GInput "a1"] (-1 - 1) = Ok (GInput "a0").
Proof.
  pose proof (USEANetDecoder_init_closed torch_nn_sample tanh_config
                "ELU" (Some (Act "Tanh")) eq_refl (or_introl eq_refl)
                (ex_intro _ "Tanh" (conj eq_refl eq_refl))) as Hinit.
  assert (Hfinal : final_not_ELU torch_nn_sample tanh_config)
    by (cbv; discriminate).
  destruct (@fusion_index_discipline graph graph_ops torch_nn_sample
              tanh_config _ [GInput "a0"; GInput "a1"] eq_refl Hfinal Hinit)
    as [_ [Hcount [_ [_ [_ [_ Hfirst]]]]]].
  eexists. split; [exact Hinit|]. split; [exact Hcount|].
  exact (Hfirst (GInput "a0") [GInput "a1"] eq_refl eq_refl).
Defined.

(** ** Activations of another class *)

Lemma no_ELU_encoder_stages (c : Config) (cls : string) (mult : Z)
  (rs : list Z) :
  cls <> "ELU" -> no_ELU (encoder_stages c (Act cls) mult rs).
Proof.
  intros Hcls. revert mult. induction rs as [|ratio rs IH]; intros mult.
  - constructor.
  - cbn [encoder_stages]. unfold encoder_stage.
    apply no_ELU_app; [|apply IH].
    apply no_ELU_app; [apply no_ELU_residual_blocks|].
    repeat constructor; [exact Hcls | discriminate].
Qed.

Lemma no_ELU_encoder_layers (c : Config) (cls : string) :
  cls <> "ELU" -> no_ELU (encoder_layers c (Act cls)).
Proof.
  intros Hcls. unfold encoder_layers.
  apply no_ELU_app; [repeat constructor; discriminate|].
  apply no_ELU_app; [now apply no_ELU_encoder_stages|].
  apply no_ELU_app; [apply no_ELU_lstm_layers|].
  repeat constructor; [exact Hcls | discriminate].
Qed.

Lemma no_ELU_decoder_stages (c : Config) (cls : string) (mult : Z)
  (rs : list Z) :
  cls <> "ELU" -> no_ELU (decoder_stages c (Act cls) mult rs).
Proof.
  intros Hcls. revert mult. induction rs as [|ratio rs IH]; intros mult.
  - constructor.
  - cbn [decoder_stages]. unfold decoder_stage.
    apply no_ELU_app; [|apply IH].
    apply no_ELU_app; [|apply no_ELU_residual_blocks].
    repeat constructor; [exact Hcls | discriminate].
Qed.

Lemma no_ELU_decoder_layers (c : Config) (cls : string) :
  cls <> "ELU" -> no_ELU (decoder_layers c (Act cls)).
Proof.
  intros Hcls. unfold decoder_layers.
  apply no_ELU_app; [repeat constructor; discriminate|].
  apply no_ELU_app; [apply no_ELU_lstm_layers|].
  apply no_ELU_app; [now apply no_ELU_decoder_stages|].
  repeat constructor; [exact Hcls | discriminate].
Qed.

(** C9, as stated, fails for the decoder: with [activation='ReLU'] and
    [final_activation='ELU'] the last layer is of class ELU, and [forward]
    fuses there.  On graphs the fusion shows in the result; on shapes, an
    activation of 127 channels is concatenated to the one-channel output
    and projected by the first adaptation layer.  In both runs the counter
    ends at 1.  Given the empty list of the encoder of the same activation,
    the fusion is attempted all the same and raises. *)
Lemma no_fusion_counterexample :
  exists self,
    torch_nn_sample (activation relu_elu_config) = Some "ReLU" /\
    USEANetDecoder_init torch_nn_sample relu_elu_config = Ok self /\
    (exists y,
        dec_loop self [GInput "a"] (dec_model self) (GInput "z") 0 =
        Ok (GTranspose
              (GLinear {| in_features := 128; out_features := 64 |}
                 (GTranspose (GCat (GCall (Act "ELU") y) (GInput "a")))),
            1)) /\
    dec_loop self [Shape 1 127 20] (dec_model self) (Shape 1 128 10) 0 =
    Ok (Shape 1 64 20, 1) /\
    USEANetDecoder_forward self (Shape 1 128 10, []) = Raise IndexError.
Proof.
  eexists. split; [reflexivity|].
  split; [vm_compute; reflexivity|].
  split; [eexists; vm_compute; reflexivity|].
  split; vm_compute; reflexivity.
Qed.

(** C9, amended.  When [activation] names a class other than ELU, the
    encoder's [forward] only applies its layers and returns the empty
    activation list; when moreover the decoder's final activation is absent
    or of another class than ELU, the decoder's list holds no fusion point,
    its [forward] only applies its layers, whatever activations it is
    given, and its counter stays at 0. *)
Theorem no_fusion_without_ELU {T : Type} `{TensorOps T}
  (torch_nn : string -> option string) (c : Config) (cls : string) :
  torch_nn (activation c) = Some cls ->
  cls <> "ELU" ->
  (forall (enc : USEANetEncoder) (x : T),
      USEANetEncoder_init torch_nn c = Ok enc ->
      USEANetEncoder_forward enc x =
      z <- call_all (enc_model enc) x ;; Ok (z, [])) /\
  (forall (dec : USEANetDecoder) (acts : list T) (x : T),
      final_not_ELU torch_nn c ->
      USEANetDecoder_init torch_nn c = Ok dec ->
      count_ELU (dec_model dec) = 0%nat /\
      dec_loop dec acts (dec_model dec) x 0 =
        (x' <- call_all (dec_model dec) x ;; Ok (x', 0)) /\
      USEANetDecoder_forward dec (x, acts) = call_all (dec_model dec) x).
Proof.
  intros Hact Hcls. split.
  - intros enc x Hinit.
    rewrite (USEANetEncoder_init_closed torch_nn c cls Hact) in Hinit.
    injection Hinit as <-. unfold USEANetEncoder_forward. cbn [enc_model].
    apply enc_loop_no_ELU. now apply no_ELU_encoder_layers.
  - intros dec acts x Hfinal Hinit.
    destruct (USEANetDecoder_init_Ok torch_nn c dec Hinit)
      as [cls' [final [Hcls' [_ [Hres ->]]]]].
    assert (cls' = cls) as -> by congruence.
    pose proof (final_layers_resolved torch_nn c final Hfinal Hres) as Hno.
    assert (Hmodel : no_ELU (decoder_layers c (Act cls) ++ final_layers final))
      by (apply no_ELU_app; [now apply no_ELU_decoder_layers | exact Hno]).
    cbn [dec_model]. split; [now apply count_ELU_no_ELU|].
    split; [now apply dec_loop_no_ELU|].
    unfold USEANetDecoder_forward. cbn [dec_model].
    rewrite dec_loop_no_ELU by exact Hmodel.
    destruct (call_all _ x); reflexivity.
Qed.

Lemma no_fusion_without_ELU_witness :
  exists enc dec,
    USEANetEncoder_init torch_nn_sample
      (config_with [8; 5; 4; 2] "ReLU" (Some "Tanh") "cat_linear") = Ok enc /\
    USEANetDecoder_init torch_nn_sample
      (config_with [8; 5; 4; 2] "ReLU" (Some "Tanh") "cat_linear") = Ok dec /\
    USEANetEncoder_forward enc (GInput "x") =
      (z <- call_all (enc_model enc) (GInput "x") ;; Ok (z, [])) /\
    USEANetDecoder_forward dec (GInput "z", [GInput "a"]) =
      call_all (dec_model dec) (GInput "z").
Proof.
  pose proof (USEANetEncoder_init_closed torch_nn_sample
                (config_with [8; 5; 4; 2] "ReLU" (Some "Tanh") "cat_linear")
                "ReLU" eq_refl) as Henc.
  pose proof (USEANetDecoder_init_closed torch_nn_sample
                (config_with [8; 5; 4; 2] "ReLU" (Some "Tanh") "cat_linear")
                "ReLU" (Some (Act "Tanh")) eq_refl (or_introl eq_refl)
                (ex_intro _ "Tanh" (conj eq_refl eq_refl))) as Hdec.
  assert (Hcls : "ReLU" <> "ELU") by discriminate.
  assert (Hfinal : final_not_ELU torch_nn_sample
                     (config_with [8; 5; 4; 2] "ReLU" (Some "Tanh")
                        "cat_linear"))
    by (cbv; discriminate).
  destruct (@no_fusion_without_ELU graph graph_ops torch_nn_sample
              (config_with [8; 5; 4; 2] "ReLU" (Some "Tanh") "cat_linear")
              "ReLU" eq_refl Hcls) as [HE HD].
  eexists. eexists. split; [exact Henc|]. split; [exact Hdec|].
  split.
  - exact (HE _ (GInput "x") Henc).
  - exact (proj2 (proj2 (HD _ [GInput "a"] (GInput "z") Hfinal Hdec))).
Defined.

(** ** A final activation of class ELU *)

(** A fusion point past the end of the activation list raises at its first
    access. *)
Lemma fuse_out_of_range {T : Type} `{TensorOps T} (self : USEANetDecoder)
  (acts : list T) (i : nat) (x : T) :
  supported (dec_skip_connection_type self) ->
  (List.length acts <= i)%nat ->
  fuse self acts (Z.of_nat i) x = Raise IndexError.
Proof.
  intros Hs Hlen. unfold fuse.
  rewrite (py_getitem_out acts (-1 - Z.of_nat i)) by (left; lia).
  destruct Hs as [-> | ->]; reflexivity.
Qed.

(** C10.  A decoder built with [activation='ELU'] and
    [final_activation='ELU'] has [n + 2] layers of class ELU and [n + 1]
    adaptation layers.  Given [n + 1] activations, [forward] goes through
    the fusion points [0 .. n], applies the final activation, and there,
    with the counter at [n + 1], both [activations[-1-i]] and
    [adaptation_layers[i]] are out of range: unless a layer or a fusion
    raised before, [forward] raises the index error; in no case does it
    return. *)
Theorem final_ELU_index_error {T : Type} `{TensorOps T}
  (torch_nn : string -> option string) (c : Config) (self : USEANetDecoder)
  (name : string) (x : T) (acts : list T) :
  torch_nn (activation c) = Some "ELU" ->
  final_activation c = Some name ->
  torch_nn name = Some "ELU" ->
  USEANetDecoder_init torch_nn c = Ok self ->
  List.length acts = (List.length (ratios c) + 1)%nat ->
  count_ELU (dec_model self) = (List.length (ratios c) + 2)%nat /\
  List.length (adaptation_layers self) = (List.length (ratios c) + 1)%nat /\
  py_getitem acts (-1 - Z.of_nat (List.length (ratios c) + 1))
    = Raise IndexError /\
  py_getitem (adaptation_layers self) (Z.of_nat (List.length (ratios c) + 1))
    = Raise IndexError /\
  USEANetDecoder_forward self (x, acts) =
    (x' <- decoder_forward self acts c (Act "ELU") None x ;;
     y <- call (Act "ELU") x' ;;
     Raise IndexError) /\
  exists e, USEANetDecoder_forward self (x, acts) = Raise e.
Proof.
  intros Hact Hfa Hname Hinit Hlen.
  destruct (USEANetDecoder_init_Ok torch_nn c self Hinit)
    as [cls [final [Hcls [Hs [Hres ->]]]]].
  assert (cls = "ELU") as -> by congruence.
  rewrite Hfa in Hres. destruct Hres as [fcls [Hf ->]].
  assert (fcls = "ELU") as -> by congruence.
  cbn [dec_model adaptation_layers final_layers].
  assert (Hrun :
    USEANetDecoder_forward
      {| dec_ratios := ratios c;
         dec_hop_length := prod (ratios c);
         dec_skip_connection_type := skip_connection_type c;
         dec_model := decoder_layers c (Act "ELU") ++ [Act "ELU"];
         adaptation_layers :=
           stage_adapters c (top_mult c) (ratios c) ++ [final_adapter c] |}
      (x, acts) =
    (x' <- decoder_forward
             {| dec_ratios := ratios c;
                dec_hop_length := prod (ratios c);
                dec_skip_connection_type := skip_connection_type c;
                dec_model := decoder_layers c (Act "ELU") ++ [Act "ELU"];
                adaptation_layers :=
                  stage_adapters c (top_mult c) (ratios c)
                  ++ [final_adapter c] |}
             acts c (Act "ELU") None x ;;
     y <- call (Act "ELU") x' ;;
     Raise IndexError)).
  { unfold USEANetDecoder_forward. cbn [dec_model].
    rewrite dec_loop_app.
    pose proof (dec_loop_decoder_layers
                  {| dec_ratios := ratios c;
                     dec_hop_length := prod (ratios c);
                     dec_skip_connection_type := skip_connection_type c;
                     dec_model := decoder_layers c (Act "ELU") ++ [Act "ELU"];
                     adaptation_layers :=
                       stage_adapters c (top_mult c) (ratios c)
                       ++ [final_adapter c] |}
                  acts c None x (Forall_nil _)) as Hbody.
    cbn [final_layers] in Hbody. rewrite app_nil_r in Hbody.
    rewrite Hbody. clear Hbody.
    destruct (decoder_forward _ acts c (Act "ELU") None x) as [x'|e];
      [|reflexivity].
    cbn [bind fst snd dec_loop class_name String.eqb Ascii.eqb Bool.eqb].
    destruct (call (Act "ELU") x') as [y|e]; [|reflexivity].
    cbn [bind].
    rewrite fuse_out_of_range;
      [reflexivity | exact Hs | unfold n_stages; lia]. }
  split; [|split; [|split; [|split; [|split]]]].
  - pose proof (count_ELU_decoder_layers c None (Forall_nil _)) as Hcount.
    cbn [final_layers] in Hcount. rewrite app_nil_r in Hcount.
    rewrite count_ELU_app, Hcount. cbn. lia.
  - rewrite length_app, stage_adapters_length. reflexivity.
  - apply py_getitem_out. left. lia.
  - apply py_getitem_out. right.
    rewrite length_app, stage_adapters_length. cbn [List.length]. lia.
  - exact Hrun.
  - rewrite Hrun.
    destruct (decoder_forward _ acts c (Act "ELU") None x) as [x'|e];
      [|now exists e].
    cbn [bind]. destruct (call (Act "ELU") x') as [y|e];
      [now exists IndexError | now exists e].
Qed.

Lemma final_ELU_index_error_witness :
  exists self,
    USEANetDecoder_init torch_nn_sample elu_elu_config = Ok self /\
    USEANetDecoder_forward self (GInput "z", [GInput "a0"; GInput "a1"])
    = Raise IndexError.
Proof.
  pose proof (USEANetDecoder_init_closed torch_nn_sample elu_elu_config
                "ELU" (Some (Act "ELU")) eq_refl (or_introl eq_refl)
                (ex_intro _ "ELU" (conj eq_refl eq_refl))) as Hinit.
  eexists. split; [exact Hinit|].
  destruct (@final_ELU_index_error graph graph_ops torch_nn_sample
              elu_elu_config _ "ELU" (GInput "z")
              [GInput "a0"; GInput "a1"] eq_refl eq_refl eq_refl Hinit
              eq_refl) as [_ [_ [_ [_ [Hrun _]]]]].
  rewrite Hrun. vm_compute. reflexivity.
Defined.

(** ** The adaptation layers, by position *)

Lemma pow2_half (k : nat) : 2 ^ Z.of_nat (S k) / 2 = 2 ^ Z.of_nat k.
Proof.
  rewrite Nat2Z.inj_succ, Z.pow_succ_r by lia.
  rewrite Z.mul_comm. apply Z.div_mul. lia.
Qed.

Lemma nth_stage_adapters (c : Config) (rs : list Z) (i : nat) :
  (i < List.length rs)%nat ->
  nth_error (stage_adapters c (2 ^ Z.of_nat (List.length rs)) rs) i =
  Some (stage_adapter c (2 ^ Z.of_nat (List.length rs - i))).
Proof.
  revert i. induction rs as [|r rs IH]; intros i Hi; [simpl in Hi; lia|].
  cbn [stage_adapters List.length]. destruct i as [|i].
  - reflexivity.
  - cbn [nth_error]. rewrite pow2_half. rewrite IH by (simpl in Hi; lia).
    reflexivity.
Qed.

(** Fusion point [i <= n] has an adaptation layer, built for the width
    [2 ^ (n - i)]. *)
Lemma nth_adaptation_layers (c : Config) (i : nat) :
  (i <= List.length (ratios c))%nat ->
  nth_error (stage_adapters c (top_mult c) (ratios c) ++ [final_adapter c]) i
  = Some (if (i <? List.length (ratios c))%nat
          then stage_adapter c (2 ^ Z.of_nat (List.length (ratios c) - i))
          else final_adapter c).
Proof.
  intros Hi. unfold top_mult, n_stages.
  destruct (Nat.ltb_spec i (List.length (ratios c))) as [Hlt|Hge].
  - rewrite nth_error_app1 by (now rewrite stage_adapters_length).
    now apply nth_stage_adapters.
  - rewrite nth_error_app2 by (rewrite stage_adapters_length; lia).
    rewrite stage_adapters_length.
    replace (i - List.length (ratios c))%nat with 0%nat by lia.
    reflexivity.
Qed.

(** ** Scaled-sum fusion with a zero scale, on float32 entries *)

Lemma bidx_inside (d i : Z) : 0 <= i < d -> bidx d i = i.
Proof.
  intros Hi. unfold bidx. destruct (Z.eqb_spec d 1) as [->|_]; lia.
Qed.

Lemma broadcast_dim_same (a : Z) : broadcast_dim a a = Ok a.
Proof. unfold broadcast_dim. now rewrite Z.eqb_refl. Qed.

Lemma broadcast_same (s : shape) : broadcast s s = Ok s.
Proof.
  unfold broadcast. rewrite !broadcast_dim_same. cbn [bind].
  now destruct s.
Qed.

Lemma f32_of_Q_zero : f32_of_Q 0%Q = SpecFloat.S754_zero false.
Proof. reflexivity. Qed.

(** A finite number times a zero is a zero. *)
Lemma f32_mul_zero (y : f32) (s : bool) :
  f32_finite y ->
  exists s', f32_mul y (SpecFloat.S754_zero s) = SpecFloat.S754_zero s'.
Proof.
  destruct y as [sy|sy| |sy my ey]; cbn; intros Hfin;
    try contradiction; eauto.
Qed.

(** Adding a zero changes no number, the sign of a zero apart. *)
Lemma f32_add_zero (x : f32) (s : bool) :
  same_value (f32_add x (SpecFloat.S754_zero s)) x.
Proof.
  unfold same_value.
  destruct x as [sx|sx| |sx mx ex]; cbn; try (now left).
  destruct sx, s; cbn; auto.
Qed.

(** The sign of a zero can change: -0 plus +0 is +0 (round to nearest). *)
Lemma f32_add_zero_sign :
  f32_add (SpecFloat.S754_zero true) (SpecFloat.S754_zero false)
  = SpecFloat.S754_zero false.
Proof. reflexivity. Qed.




(** ** Shapes through the layers *)

Lemma shape_residual_blocks (c : Config) (b dim t : Z) :
  call_all (residual_blocks c dim) (Shape b dim t) = Ok (Shape b dim t).
Proof.
  unfold residual_blocks.
  induction (range (n_residual_layers c)) as [|j js IH]; [reflexivity|].
  cbn [map call_all call shape_ops shape_call dim1].
  rewrite Z.eqb_refl. cbn [bind]. exact IH.
Qed.

Lemma shape_lstm_layers (c : Config) (b mult t : Z) :
  call_all (lstm_layers c mult) (Shape b (mult * n_filters c) t) =
  Ok (Shape b (mult * n_filters c) t).
Proof.
  unfold lstm_layers. destruct (lstm c =? 0); [reflexivity|].
  cbn [call_all call shape_ops shape_call dim1].
  now rewrite Z.eqb_refl.
Qed.

Lemma shape_downsample (c : Config) (b mult ratio t : Z) :
  0 < ratio ->
  shape_call (downsample c mult ratio)
    (Shape b (mult * n_filters c) (t * ratio)) =
  Ok (Shape b (2 * mult * n_filters c) t).
Proof.
  intros Hr. unfold downsample. cbn [shape_call dim0 dim1 dim2].
  rewrite Z.eqb_refl, Z.div_mul by lia. reflexivity.
Qed.

Lemma shape_upsample (c : Config) (b ratio t : Z) (k : nat) :
  shape_call (upsample c (2 ^ Z.of_nat (S k)) ratio)
    (Shape b (2 ^ Z.of_nat (S k) * n_filters c) t) =
  Ok (Shape b (2 ^ Z.of_nat k * n_filters c) (t * ratio)).
Proof.
  unfold upsample. cbn [shape_call dim0 dim1 dim2].
  rewrite Z.eqb_refl. do 2 f_equal.
  rewrite Nat2Z.inj_succ, Z.pow_succ_r by lia.
  replace (2 * 2 ^ Z.of_nat k * n_filters c)
    with (2 ^ Z.of_nat k * n_filters c * 2) by lia.
  apply Z.div_mul. lia.
Qed.

Lemma prod_rev (l : list Z) : prod (rev l) = prod l.
Proof.
  induction l as [|r l IH]; [reflexivity|].
  cbn [rev]. rewrite prod_snoc, prod_cons, IH. lia.
Qed.

(** A fitting adaptation layer fuses two tensors of shape [(b, w, t)] into
    one of that shape, under either strategy. *)
Lemma shape_fusion (sk : string) (ad : adaptation) (b w t : Z) :
  fits sk ad w ->
  fusion sk (Ok (Shape b w t)) (Ok ad) (Shape b w t) = Ok (Shape b w t).
Proof.
  intros [[-> [lin [-> [Hin Hout]]]] | [-> [lin [sc [-> [Hin Hout]]]]]];
    unfold fusion.
  - change (String.eqb "cat_linear" "cat_linear") with true. cbv iota.
    cbn [bind cat shape_ops]. unfold shape_cat. cbn [dim0 dim1 dim2].
    rewrite !Z.eqb_refl. cbn [andb bind transpose shape_ops].
    unfold adaptation_forward. cbn [linear shape_ops].
    unfold shape_linear, shape_transpose. cbn [dim0 dim1 dim2].
    replace (w + w =? in_features lin) with true
      by (symmetry; apply Z.eqb_eq; lia).
    cbn [bind dim0 dim1 dim2]. now rewrite Hout.
  - change (String.eqb "scaled_sum" "cat_linear") with false.
    change (String.eqb "scaled_sum" "scaled_sum") with true. cbv iota.
    cbn [bind transpose shape_ops].
    unfold adaptation_forward. cbn [linear shape_ops].
    unfold shape_linear, shape_transpose. cbn [dim0 dim1 dim2].
    replace (w =? in_features lin) with true
      by (symmetry; apply Z.eqb_eq; lia).
    cbn [bind ScaleLayer_forward mul_scalar shape_ops add dim0 dim1 dim2].
    rewrite Hout. apply broadcast_same.
Qed.

(** ** Shapes through the encoder *)

Lemma captured_cons (cls : string) (acts : list shape) (a : shape)
  (l : list shape) :
  (if String.eqb cls "ELU" then acts ++ [a] else acts) ++ captured cls l =
  acts ++ captured cls (a :: l).
Proof.
  unfold captured. destruct (String.eqb cls "ELU").
  - now rewrite <- app_assoc.
  - reflexivity.
Qed.

(** The encoder's stages divide the time by the product of their ratios and
    multiply the width by two per stage; each capture has the shape the
    stage's convolution receives. *)
Lemma enc_loop_stages_shape (c : Config) (cls : string) (b t : Z)
  (rs : list Z) (mult : Z) (acts : list shape) :
  Forall (fun r => 0 < r) rs ->
  enc_loop (encoder_stages c (Act cls) mult rs)
    (Shape b (mult * n_filters c) (t * prod rs)) acts =
  Ok (Shape b (mult * 2 ^ Z.of_nat (List.length rs) * n_filters c) t,
      acts ++ captured cls (enc_captures b (n_filters c) mult t rs)).
Proof.
  intros Hpos. revert mult acts.
  induction Hpos as [|r rs Hr _ IH]; intros mult acts.
  - cbn [encoder_stages enc_loop List.length enc_captures].
    replace (captured cls []) with (@nil shape)
      by (unfold captured; now destruct (String.eqb cls "ELU")).
    rewrite app_nil_r. unfold prod. cbn [fold_left Z.of_nat].
    do 3 f_equal; lia.
  - cbn [encoder_stages]. unfold encoder_stage.
    rewrite enc_loop_app, enc_loop_app.
    rewrite enc_loop_no_ELU by apply no_ELU_residual_blocks.
    rewrite shape_residual_blocks.
    cbn [bind fst snd enc_loop call shape_ops class_name].
    cbn [shape_call bind].
    replace (t * prod (r :: rs)) with (t * prod rs * r)
      by (rewrite prod_cons; lia).
    change (class_name (downsample c mult r)) with "SConv1d".
    change (String.eqb "SConv1d" "ELU") with false. cbv iota.
    rewrite shape_downsample by exact Hr.
    cbn [bind fst snd].
    rewrite IH. f_equal. f_equal.
    + f_equal. cbn [List.length].
      rewrite Nat2Z.inj_succ, Z.pow_succ_r by lia. lia.
    + rewrite captured_cons. cbn [enc_captures].
      replace (t * prod (r :: rs)) with (t * prod rs * r)
        by (rewrite prod_cons; lia).
      reflexivity.
Qed.

Lemma shape_act (cls : string) (s : shape) : shape_call (Act cls) s = Ok s.
Proof. reflexivity. Qed.

Lemma shape_conv_stride1 (cin cout k : Z) (o : conv_opts) (b t : Z) :
  shape_call (SConv1d cin cout k 1 o) (Shape b cin t) = Ok (Shape b cout t).
Proof.
  cbn [shape_call dim0 dim1 dim2]. now rewrite Z.eqb_refl, Z.div_1_r.
Qed.

(** The whole encoder on an input of [channels] channels whose length is a
    multiple of the product of the ratios. *)
Lemma enc_loop_encoder_layers_shape (c : Config) (cls : string) (b t : Z) :
  Forall (fun r => 0 < r) (ratios c) ->
  enc_loop (encoder_layers c (Act cls))
    (Shape b (channels c) (t * prod (ratios c))) [] =
  Ok (Shape b (dimension c) t,
      captured cls
        (enc_captures b (n_filters c) 1 t (rev (ratios c))
         ++ [Shape b (top_mult c * n_filters c) t])).
Proof.
  intros Hpos. unfold encoder_layers, encoder_first, encoder_last.
  cbn [app enc_loop call shape_ops class_name].
  rewrite shape_conv_stride1. cbn [bind].
  change (String.eqb "SConv1d" "ELU") with false. cbv iota.
  rewrite enc_loop_app.
  replace (n_filters c) with (1 * n_filters c) at 1 by lia.
  rewrite <- (prod_rev (ratios c)).
  rewrite enc_loop_stages_shape by (now apply Forall_rev).
  cbn [bind fst snd app]. rewrite length_rev, Z.mul_1_l.
  rewrite enc_loop_app, enc_loop_no_ELU by apply no_ELU_lstm_layers.
  fold (n_stages c). fold (top_mult c).
  rewrite shape_lstm_layers.
  cbn [bind fst snd enc_loop call shape_ops class_name].
  rewrite shape_act. cbn [bind]. rewrite shape_conv_stride1. cbn [bind].
  change (String.eqb "SConv1d" "ELU") with false. cbv iota.
  f_equal. f_equal. unfold captured.
  destruct (String.eqb cls "ELU"); reflexivity.
Qed.

Lemma enc_captures_length (b nf mult t : Z) (rs : list Z) :
  List.length (enc_captures b nf mult t rs) = List.length rs.
Proof.
  revert mult. induction rs as [|r rs IH]; intros mult; simpl;
    [reflexivity | now rewrite IH].
Qed.

Lemma nth_enc_captures (b nf t : Z) (rs : list Z) (mult : Z) (k : nat) :
  (k < List.length rs)%nat ->
  nth_error (enc_captures b nf mult t rs) k =
  Some (Shape b (mult * 2 ^ Z.of_nat k * nf) (t * prod (skipn k rs))).
Proof.
  revert mult k. induction rs as [|r rs IH]; intros mult k Hk;
    [simpl in Hk; lia|].
  destruct k as [|k].
  - cbn [enc_captures nth_error skipn Z.of_nat]. do 2 f_equal. lia.
  - cbn [enc_captures nth_error skipn]. rewrite IH by (simpl in Hk; lia).
    do 2 f_equal. rewrite Nat2Z.inj_succ, Z.pow_succ_r by lia. lia.
Qed.

(** ** Shapes through the decoder *)

(** A nonlinearity in the decoder's loop: of class ELU it is a fusion point
    and, when the fusion is ready, leaves the shape alone and advances the
    counter; of another class it is only applied. *)
Lemma dec_loop_act_shape (self : USEANetDecoder) (acts : list shape)
  (cls : string) (rest : list layer) (b w t : Z) (i : nat) :
  (cls = "ELU" -> fusion_ready self acts i b w t) ->
  dec_loop self acts (Act cls :: rest) (Shape b w t) (Z.of_nat i) =
  dec_loop self acts rest (Shape b w t) (Z.of_nat (bump cls i)).
Proof.
  intros Hready. cbn [dec_loop class_name call shape_ops].
  rewrite shape_act. cbn [bind]. unfold bump.
  destruct (String.eqb_spec cls "ELU") as [Hcls|Hcls]; [|reflexivity].
  destruct (Hready Hcls) as [Hact [ad [Had Hfits]]].
  rewrite fuse_fusion_point. unfold fusion_point. rewrite Hact, Had.
  rewrite shape_fusion by exact Hfits. cbn [bind].
  now replace (Z.of_nat i + 1) with (Z.of_nat (S i)) by lia.
Qed.

(** The transposed convolution and the residual blocks of a stage. *)
Lemma dec_loop_up_res_shape (self : USEANetDecoder) (acts : list shape)
  (c : Config) (rest : list layer) (b r t : Z) (k : nat) (i : Z) :
  dec_loop self acts
    (upsample c (2 ^ Z.of_nat (S k)) r
     :: residual_blocks c (2 ^ Z.of_nat (S k) * n_filters c / 2) ++ rest)
    (Shape b (2 ^ Z.of_nat (S k) * n_filters c) t) i =
  dec_loop self acts rest (Shape b (2 ^ Z.of_nat k * n_filters c) (t * r)) i.
Proof.
  cbn [dec_loop call shape_ops].
  change (class_name (upsample c (2 ^ Z.of_nat (S k)) r))
    with "SConvTranspose1d".
  change (String.eqb "SConvTranspose1d" "ELU") with false. cbv iota.
  rewrite shape_upsample. cbn [bind].
  rewrite dec_loop_app, dec_loop_no_ELU by apply no_ELU_residual_blocks.
  replace (2 ^ Z.of_nat (S k) * n_filters c / 2)
    with (2 ^ Z.of_nat k * n_filters c).
  - rewrite shape_residual_blocks. reflexivity.
  - rewrite Nat2Z.inj_succ, Z.pow_succ_r by lia.
    replace (2 * 2 ^ Z.of_nat k * n_filters c)
      with (2 ^ Z.of_nat k * n_filters c * 2) by lia.
    symmetry. apply Z.div_mul. lia.
Qed.

Lemma bump_stages (cls : string) (i k : nat) :
  (if String.eqb cls "ELU" then (bump cls i + k)%nat else bump cls i) =
  (if String.eqb cls "ELU" then (i + S k)%nat else i).
Proof. unfold bump. destruct (String.eqb cls "ELU"); lia. Qed.

(** The decoder's stages multiply the time by the product of their ratios
    and bring the width down to [n_filters]; with the class ELU, stage [j]
    is fusion point [i + j], at width [2 ^ (n - j) * n_filters] and time
    [t] times the first [j] ratios. *)
Lemma dec_loop_stages_shape (self : USEANetDecoder) (acts : list shape)
  (c : Config) (cls : string) (rest : list layer) (b : Z) (rs : list Z)
  (t : Z) (i : nat) :
  (cls = "ELU" ->
   forall j, (j < List.length rs)%nat ->
     fusion_ready self acts (i + j) b
       (2 ^ Z.of_nat (List.length rs - j) * n_filters c)
       (t * prod (firstn j rs))) ->
  dec_loop self acts
    (decoder_stages c (Act cls) (2 ^ Z.of_nat (List.length rs)) rs ++ rest)
    (Shape b (2 ^ Z.of_nat (List.length rs) * n_filters c) t) (Z.of_nat i) =
  dec_loop self acts rest (Shape b (n_filters c) (t * prod rs))
    (Z.of_nat (if String.eqb cls "ELU" then (i + List.length rs)%nat else i)).
Proof.
  revert t i. induction rs as [|r rs IH]; intros t i Hready.
  - cbn [decoder_stages app List.length Z.of_nat].
    rewrite Nat.add_0_r.
    replace (2 ^ 0 * n_filters c) with (n_filters c) by lia.
    replace (t * prod []) with t by (unfold prod; cbn [fold_left]; lia).
    now destruct (String.eqb cls "ELU").
  - cbn [decoder_stages List.length]. unfold decoder_stage.
    rewrite pow2_half. rewrite <- !app_assoc. cbn [app].
    rewrite dec_loop_act_shape.
    + rewrite dec_loop_up_res_shape. rewrite IH.
      * rewrite bump_stages.
        replace (t * r * prod rs) with (t * prod (r :: rs))
          by (rewrite prod_cons; lia).
        reflexivity.
      * intros Hcls j Hj. unfold bump.
        replace (String.eqb cls "ELU") with true
          by (symmetry; now apply String.eqb_eq).
        specialize (Hready Hcls (S j)).
        cbn [List.length firstn] in Hready.
        replace (i + S j)%nat with (S i + j)%nat in Hready by lia.
        replace (S (List.length rs) - S j)%nat
          with (List.length rs - j)%nat in Hready by lia.
        replace (t * prod (r :: firstn j rs))
          with (t * r * prod (firstn j rs)) in Hready
          by (rewrite prod_cons; lia).
        apply Hready. lia.
    + intros Hcls. specialize (Hready Hcls 0%nat).
      cbn [List.length firstn] in Hready.
      rewrite Nat.add_0_r, Nat.sub_0_r in Hready.
      replace (t * prod []) with t in Hready
        by (unfold prod; cbn [fold_left]; lia).
      apply Hready. lia.
Qed.

Lemma shape_final_layers (final : option layer) (s : shape) :
  final_plain final ->
  no_ELU (final_layers final) /\ call_all (final_layers final) s = Ok s.
Proof.
  unfold final_plain, no_ELU. destruct final as [l|].
  - intros [fcls [-> Hf]]. split; [repeat constructor; exact Hf|reflexivity].
  - intros _. split; [constructor|reflexivity].
Qed.

(** The whole decoder on a latent of [dimension] channels: the output has
    [channels] channels and the time multiplied by the product of the
    ratios. *)
Lemma dec_loop_decoder_layers_shape (self : USEANetDecoder)
  (acts : list shape) (c : Config) (cls : string) (final : option layer)
  (b t : Z) :
  final_plain final ->
  (cls = "ELU" ->
   forall j, (j <= List.length (ratios c))%nat ->
     fusion_ready self acts j b
       (2 ^ Z.of_nat (List.length (ratios c) - j) * n_filters c)
       (t * prod (firstn j (ratios c)))) ->
  exists i,
    dec_loop self acts (decoder_layers c (Act cls) ++ final_layers final)
      (Shape b (dimension c) t) 0 =
    Ok (Shape b (channels c) (t * prod (ratios c)), i).
Proof.
  intros Hfinal Hready.
  unfold decoder_layers, decoder_first, decoder_last.
  rewrite <- !app_assoc.
  cbn [app dec_loop call shape_ops class_name].
  change (String.eqb "SConv1d" "ELU") with false. cbv iota.
  rewrite shape_conv_stride1. cbn [bind].
  rewrite dec_loop_app, dec_loop_no_ELU by apply no_ELU_lstm_layers.
  rewrite shape_lstm_layers. cbn [bind fst snd].
  unfold top_mult, n_stages.
  change 0 with (Z.of_nat 0).
  rewrite dec_loop_stages_shape.
  - rewrite dec_loop_act_shape.
    + cbn [dec_loop call shape_ops class_name].
      change (String.eqb "SConv1d" "ELU") with false. cbv iota.
      rewrite shape_conv_stride1. cbn [bind].
      destruct (shape_final_layers final
                  (Shape b (channels c) (t * prod (ratios c))) Hfinal)
        as [Hno Hcall].
      rewrite dec_loop_no_ELU by exact Hno. rewrite Hcall. cbn [bind].
      eexists. reflexivity.
    + intros Hcls.
      replace (String.eqb cls "ELU") with true
        by (symmetry; now apply String.eqb_eq).
      specialize (Hready Hcls (List.length (ratios c)) (Nat.le_refl _)).
      rewrite Nat.sub_diag, firstn_all in Hready.
      replace (2 ^ Z.of_nat 0 * n_filters c) with (n_filters c) in Hready
        by (cbn [Z.of_nat]; lia).
      exact Hready.
  - intros Hcls j Hj. apply (Hready Hcls j). cbn [Nat.add]. lia.
Qed.

(** ** Encoder and decoder together *)

(** The adaptation layer of every fusion point fits the width there, when
    the decoder was told the encoder's width. *)
Lemma adapters_fit (c : Config) (j : nat) :
  supported (skip_connection_type c) ->
  n_filters_encoder c = n_filters c ->
  (j <= List.length (ratios c))%nat ->
  exists ad,
    adapter_at (stage_adapters c (top_mult c) (ratios c) ++ [final_adapter c])
      j = Ok ad /\
    fits (skip_connection_type c) ad
      (2 ^ Z.of_nat (List.length (ratios c) - j) * n_filters c).
Proof.
  intros Hs Hnfe Hj. unfold adapter_at.
  rewrite nth_adaptation_layers by exact Hj.
  eexists. split; [reflexivity|].
  unfold fits, stage_adapter, final_adapter, cat_linear_stage,
    scaled_sum_stage, cat_linear_final, scaled_sum_final.
  destruct (Nat.ltb_spec j (List.length (ratios c))) as [Hlt|Hge].
  - destruct Hs as [Hs|Hs]; rewrite Hs.
    + left. split; [reflexivity|]. eexists. split; [reflexivity|].
      cbn [in_features out_features]. split; lia.
    + right. split; [reflexivity|]. eexists. eexists.
      split; [reflexivity|].
      cbn [in_features out_features]. rewrite Hnfe. split; reflexivity.
  - replace (List.length (ratios c) - j)%nat with 0%nat by lia.
    cbn [Z.of_nat].
    destruct Hs as [Hs|Hs]; rewrite Hs.
    + left. split; [reflexivity|]. eexists. split; [reflexivity|].
      cbn [in_features out_features]. rewrite Hnfe. split; lia.
    + right. split; [reflexivity|]. eexists. eexists.
      split; [reflexivity|].
      cbn [in_features out_features]. rewrite Hnfe. split; lia.
Qed.

(** The encoder's captures, read from the back: fusion point [j] finds the
    capture of width [2 ^ (n - j) * n_filters] whose time is [t] times the
    first [j] ratios. *)
Lemma consumed_enc_captures (b nf t : Z) (rs : list Z) (j : nat) :
  (j <= List.length rs)%nat ->
  consumed
    (enc_captures b nf 1 t (rev rs)
     ++ [Shape b (2 ^ Z.of_nat (List.length rs) * nf) t]) j =
  Ok (Shape b (2 ^ Z.of_nat (List.length rs - j) * nf)
        (t * prod (firstn j rs))).
Proof.
  intros Hj. unfold consumed.
  rewrite length_app, enc_captures_length, length_rev. cbn [List.length].
  replace (j <? List.length rs + 1)%nat with true
    by (symmetry; apply Nat.ltb_lt; lia).
  replace (List.length rs + 1 - 1 - j)%nat with (List.length rs - j)%nat
    by lia.
  destruct j as [|j].
  - rewrite Nat.sub_0_r.
    rewrite nth_error_app2 by (rewrite enc_captures_length, length_rev; lia).
    rewrite enc_captures_length, length_rev, Nat.sub_diag.
    cbn [nth_error firstn].
    replace (t * prod []) with t by (unfold prod; cbn [fold_left]; lia).
    reflexivity.
  - rewrite nth_error_app1 by (rewrite enc_captures_length, length_rev; lia).
    rewrite nth_enc_captures by (rewrite length_rev; lia).
    rewrite skipn_rev, prod_rev.
    replace (List.length rs - (List.length rs - S j))%nat with (S j) by lia.
    do 2 f_equal. lia.
Qed.

Lemma final_plain_resolved (torch_nn : string -> option string) (c : Config)
  (final : option layer) :
  final_not_ELU torch_nn c ->
  match final_activation c with
  | Some name => exists fcls, torch_nn name = Some fcls /\ final = Some (Act fcls)
  | None => final = None
  end ->
  final_plain final.
Proof.
  unfold final_not_ELU, final_plain. destruct (final_activation c) as [name|].
  - intros Hne [fcls [Hf ->]]. exists fcls. split; [reflexivity|congruence].
  - intros _ ->. exact I.
Qed.

(** C6.  For a matched pair of configurations with positive ratios, whose
    decoder has no final activation of class ELU: the encoder maps a tensor
    of shape [(batch, channels, T)], [T] a multiple [t] of the product of
    the ratios, to a latent of shape [(batch, dimension, t)] with its
    activations, and the decoder maps that pair back to a tensor of shape
    [(batch, channels, T)]. *)
Theorem encode_decode_shape (torch_nn : string -> option string)
  (ce cd : Config) (enc : USEANetEncoder) (dec : USEANetDecoder) (b t : Z) :
  matched ce cd ->
  Forall (fun r => 0 < r) (ratios ce) ->
  final_not_ELU torch_nn cd ->
  USEANetEncoder_init torch_nn ce = Ok enc ->
  USEANetDecoder_init torch_nn cd = Ok dec ->
  exists acts,
    USEANetEncoder_forward enc (Shape b (channels ce) (t * prod (ratios ce)))
    = Ok (Shape b (dimension ce) t, acts) /\
    USEANetDecoder_forward dec (Shape b (dimension ce) t, acts)
    = Ok (Shape b (channels ce) (t * prod (ratios ce))).
Proof.
  intros [Hratios [Hnf [Hnfe [Hch [Hdim Hactiv]]]]] Hpos Hfinal Henc Hdec.
  destruct (USEANetEncoder_init_Ok torch_nn ce enc Henc) as [cls [Hcls ->]].
  destruct (USEANetDecoder_init_Ok torch_nn cd dec Hdec)
    as [cls' [final [Hcls' [Hs [Hres Hself]]]]].
  assert (cls' = cls) as -> by (rewrite Hactiv in Hcls'; congruence).
  pose proof (final_plain_resolved torch_nn cd final Hfinal Hres) as Hplain.
  eexists. split.
  - unfold USEANetEncoder_forward. cbn [enc_model].
    now apply enc_loop_encoder_layers_shape.
  - destruct (dec_loop_decoder_layers_shape dec
                (captured cls
                   (enc_captures b (n_filters ce) 1 t (rev (ratios ce))
                    ++ [Shape b (top_mult ce * n_filters ce) t]))
                cd cls final b t Hplain) as [i Hrun].
    + intros -> j Hj. unfold captured.
      change (String.eqb "ELU" "ELU") with true. cbv iota.
      split.
      * rewrite Hnf, Hratios. unfold top_mult, n_stages.
        apply consumed_enc_captures. now rewrite <- Hratios.
      * subst dec. cbn [adaptation_layers dec_skip_connection_type].
        destruct (adapters_fit cd j Hs) as [ad [Had Hfit]];
          [congruence | exact Hj |].
        exists ad. now split.
    + unfold USEANetDecoder_forward.
      replace (dec_model dec)
        with (decoder_layers cd (Act cls) ++ final_layers final)
        by (now subst dec).
      rewrite <- Hdim, Hrun. cbn [bind fst].
      now rewrite Hch, Hratios.
Qed.

Lemma encode_decode_shape_witness :
  exists enc dec acts,
    USEANetEncoder_init torch_nn_sample default_config = Ok enc /\
    USEANetDecoder_init torch_nn_sample default_config = Ok dec /\
    USEANetEncoder_forward enc (Shape 2 1 960) = Ok (Shape 2 128 3, acts) /\
    USEANetDecoder_forward dec (Shape 2 128 3, acts) = Ok (Shape 2 1 960).
Proof.
  pose proof (USEANetEncoder_init_closed torch_nn_sample default_config "ELU"
                eq_refl) as Henc.
  pose proof (USEANetDecoder_init_closed torch_nn_sample default_config
                "ELU" None eq_refl (or_introl eq_refl) eq_refl) as Hdec.
  assert (Hmatched : matched default_config default_config)
    by (repeat split).
  assert (Hpos : Forall (fun r => 0 < r) (ratios default_config))
    by (repeat constructor).
  destruct (encode_decode_shape torch_nn_sample default_config default_config
              _ _ 2 3 Hmatched Hpos I Henc Hdec) as [acts [Hfwd Hback]].
  eexists. eexists. exists acts.
  split; [exact Henc|]. split; [exact Hdec|]. split; assumption.
Defined.

(** ** Two runs on shapes *)

(** Ratios handed to the decoder in the reverse of the encoder's order do
    not pair up: the second fusion meets tensors of different lengths. *)
Example reversed_ratios_mismatch :
  exists enc dec z acts,
    USEANetEncoder_init torch_nn_sample
      (config_with [2; 4] "ELU" None "cat_linear") = Ok enc /\
    USEANetDecoder_init torch_nn_sample
      (config_with [4; 2] "ELU" None "cat_linear") = Ok dec /\
    USEANetEncoder_forward enc (Shape 1 1 16) = Ok (z, acts) /\
    USEANetDecoder_forward dec (z, acts) = Raise RuntimeError.
Proof.
  eexists. eexists. eexists. eexists.
  split; [vm_compute; reflexivity|].
  split; [vm_compute; reflexivity|].
  split; vm_compute; reflexivity.
Qed.

(** With [ELU] for both activations the matched pair runs through every
    fusion and stops at the final activation with the index error. *)
Example final_ELU_on_shapes :
  exists enc dec z acts,
    USEANetEncoder_init torch_nn_sample elu_elu_config = Ok enc /\
    USEANetDecoder_init torch_nn_sample elu_elu_config = Ok dec /\
    USEANetEncoder_forward enc (Shape 1 1 16) = Ok (z, acts) /\
    List.length acts = 2%nat /\
    USEANetDecoder_forward dec (z, acts) = Raise IndexError.
Proof.
  eexists. eexists. eexists. eexists.
  split; [vm_compute; reflexivity|].
  split; [vm_compute; reflexivity|].
  split; [vm_compute; reflexivity|].
  split; vm_compute; reflexivity.
Qed.

(** * Further properties *)

(** ** The outcome of construction *)

Lemma supportedb_spec (sk : string) : supportedb sk = true <-> supported sk.
Proof.
  unfold supportedb, supported. rewrite orb_true_iff, !String.eqb_eq.
  reflexivity.
Qed.

(** [USEANetDecoder.__init__] checks, in this order, the activation name,
    the skip strategy and the final activation name; the first check that
    fails decides the exception, and when none fails the decoder holds the
    layer list and the adaptation layers in closed form. *)
Theorem decoder_init_outcome (torch_nn : string -> option string)
  (c : Config) :
  USEANetDecoder_init torch_nn c =
  match torch_nn (activation c) with
  | None => Raise (AttributeError (activation c))
  | Some cls =>
      if supportedb (skip_connection_type c) then
        match final_activation c with
        | None => Ok (decoder_built c cls None)
        | Some name =>
            match torch_nn name with
            | None => Raise (AttributeError name)
            | Some fcls => Ok (decoder_built c cls (Some (Act fcls)))
            end
        end
      else Raise UnrecognizedSkip
  end.
Proof.
  destruct (torch_nn (activation c)) as [cls|] eqn:Hact;
    [|now apply USEANetDecoder_init_no_activation].
  destruct (supportedb (skip_connection_type c)) eqn:Hsb.
  - apply supportedb_spec in Hsb.
    destruct (final_activation c) as [name|] eqn:Hfa.
    + destruct (torch_nn name) as [fcls|] eqn:Hf.
      * apply (USEANetDecoder_init_closed torch_nn c cls (Some (Act fcls))
                 Hact Hsb).
        rewrite Hfa. exists fcls. now split.
      * unfold USEANetDecoder_init, getattr_nn. rewrite Hact. cbn [bind].
        match goal with
        | |- context [dec_stages c ?a ?rs ?m ?md ?ad] =>
            destruct (dec_stages_closed c a rs m md ad Hsb) as [m' Hm']
        end.
        rewrite Hm'. cbn [bind].
        rewrite final_adaptation_supported by exact Hsb. cbn [bind].
        now rewrite Hfa, Hf.
    + apply (USEANetDecoder_init_closed torch_nn c cls None Hact Hsb).
      now rewrite Hfa.
  - apply (USEANetDecoder_init_unsupported torch_nn c cls Hact).
    intros Hs. apply supportedb_spec in Hs. congruence.
Qed.

(** ** Layer counts *)

Lemma encoder_stages_length (c : Config) (act : layer) (mult : Z)
  (rs : list Z) :
  List.length (encoder_stages c act mult rs) =
  (List.length rs * stage_size c)%nat.
Proof.
  revert mult. induction rs as [|r rs IH]; intros mult; [reflexivity|].
  cbn [encoder_stages List.length]. unfold encoder_stage.
  rewrite !length_app, IH, residual_blocks_length. unfold stage_size.
  cbn [List.length]. lia.
Qed.

Lemma decoder_stages_length (c : Config) (act : layer) (mult : Z)
  (rs : list Z) :
  List.length (decoder_stages c act mult rs) =
  (List.length rs * stage_size c)%nat.
Proof.
  revert mult. induction rs as [|r rs IH]; intros mult; [reflexivity|].
  cbn [decoder_stages List.length]. unfold decoder_stage.
  rewrite !length_app, IH, residual_blocks_length. unfold stage_size.
  cbn [List.length]. lia.
Qed.

Lemma lstm_layers_length (c : Config) (mult : Z) :
  List.length (lstm_layers c mult) = lstm_size c.
Proof. unfold lstm_layers, lstm_size. now destruct (lstm c =? 0). Qed.

(** An encoder and a decoder built from the same arguments have the same
    number of layers, the decoder's final activation apart: three fixed
    layers, [max n_residual_layers 0 + 2] per ratio, and one more when
    [lstm] is not 0.  A negative [n_residual_layers] counts as 0. *)
Theorem layer_counts (torch_nn : string -> option string) (c : Config)
  (enc : USEANetEncoder) (dec : USEANetDecoder) :
  USEANetEncoder_init torch_nn c = Ok enc ->
  USEANetDecoder_init torch_nn c = Ok dec ->
  List.length (enc_model enc) =
    (3 + List.length (ratios c) * (Z.to_nat (n_residual_layers c) + 2)
     + lstm_size c)%nat /\
  List.length (dec_model dec) =
    (List.length (enc_model enc) + final_size c)%nat.
Proof.
  intros Henc Hdec.
  destruct (USEANetEncoder_init_Ok torch_nn c enc Henc) as [cls [_ ->]].
  destruct (USEANetDecoder_init_Ok torch_nn c dec Hdec)
    as [cls' [final [_ [_ [Hres ->]]]]].
  cbn [enc_model dec_model].
  assert (Hfinal : List.length (final_layers final) = final_size c).
  { unfold final_size. destruct (final_activation c) as [name|].
    - destruct Hres as [fcls [_ ->]]. reflexivity.
    - now subst final. }
  unfold encoder_layers, decoder_layers.
  rewrite !length_app, encoder_stages_length, decoder_stages_length,
    !lstm_layers_length, length_rev, Hfinal.
  unfold stage_size. cbn [List.length]. lia.
Qed.

Lemma layer_counts_witness :
  exists enc dec,
    USEANetEncoder_init torch_nn_sample tanh_config = Ok enc /\
    USEANetDecoder_init torch_nn_sample tanh_config = Ok dec /\
    List.length (enc_model enc) = 7%nat /\
    List.length (dec_model dec) = 8%nat.
Proof.
  pose proof (USEANetEncoder_init_closed torch_nn_sample tanh_config "ELU"
                eq_refl) as Henc.
  pose proof (USEANetDecoder_init_closed torch_nn_sample tanh_config
                "ELU" (Some (Act "Tanh")) eq_refl (or_introl eq_refl)
                (ex_intro _ "Tanh" (conj eq_refl eq_refl))) as Hdec.
  destruct (layer_counts torch_nn_sample tanh_config _ _ Henc Hdec)
    as [Hlen_enc Hlen_dec].
  eexists. eexists. split; [exact Henc|]. split; [exact Hdec|].
  split; [exact Hlen_enc|]. rewrite Hlen_dec, Hlen_enc. reflexivity.
Defined.

(** ** How many activations the decoder needs *)

Section ActivationsNeeded.

Context {T : Type} `{TensorOps T}.

Lemma consumed_out_of_range {A : Type} (acts : list A) (i : nat) :
  (List.length acts <= i)%nat -> consumed acts i = Raise IndexError.
Proof.
  intros Hle. unfold consumed.
  now replace (i <? List.length acts)%nat with false
    by (symmetry; apply Nat.ltb_ge; exact Hle).
Qed.

Lemma consumed_in_range {A : Type} (acts : list A) (i : nat) :
  (i < List.length acts)%nat -> exists a, consumed acts i = Ok a.
Proof.
  intros Hlt. unfold consumed.
  replace (i <? List.length acts)%nat with true
    by (symmetry; apply Nat.ltb_lt; exact Hlt).
  destruct (nth_error acts (List.length acts - 1 - i)) as [a|] eqn:Hn.
  - now exists a.
  - apply nth_error_None in Hn. lia.
Qed.

Lemma adapter_in_range (adapt : list adaptation) (i : nat) :
  (i < List.length adapt)%nat -> exists ad, adapter_at adapt i = Ok ad.
Proof.
  intros Hlt. unfold adapter_at.
  destruct (nth_error adapt i) as [ad|] eqn:Hn.
  - now exists ad.
  - apply nth_error_None in Hn. lia.
Qed.

(** A fusion point at or past the length of the activation list raises the
    index error, before any tensor operation. *)
Lemma fusion_point_index_error (self : USEANetDecoder) (acts : list T)
  (i : nat) (x : T) :
  supported (dec_skip_connection_type self) ->
  (List.length acts <= i)%nat ->
  fusion_point self acts i x = Raise IndexError.
Proof.
  intros Hs Hle. unfold fusion_point, fusion.
  rewrite consumed_out_of_range by exact Hle.
  destruct Hs as [-> | ->]; reflexivity.
Qed.

Lemma fusion_point_Ok (self : USEANetDecoder) (acts : list T) (i : nat)
  (x y : T) :
  supported (dec_skip_connection_type self) ->
  fusion_point self acts i x = Ok y ->
  (i < List.length acts)%nat.
Proof.
  intros Hs Hrun.
  destruct (Nat.lt_ge_cases i (List.length acts)) as [Hlt|Hge];
    [exact Hlt|].
  rewrite fusion_point_index_error in Hrun by assumption. discriminate Hrun.
Qed.

(** The pipeline returns only if its last fusion point, [n], found an
    activation. *)
Lemma decoder_forward_Ok (self : USEANetDecoder) (acts : list T) (c : Config)
  (act : layer) (final : option layer) (x y : T) :
  supported (dec_skip_connection_type self) ->
  decoder_forward self acts c act final x = Ok y ->
  (n_stages c < List.length acts)%nat.
Proof.
  intros Hs Hrun. unfold decoder_forward in Hrun.
  apply bind_Ok in Hrun. destruct Hrun as [x0 [_ Hrun]].
  apply bind_Ok in Hrun. destruct Hrun as [x1 [_ Hrun]].
  apply bind_Ok in Hrun. destruct Hrun as [x2 [_ Hrun]].
  apply bind_Ok in Hrun. destruct Hrun as [x3 [_ Hrun]].
  apply bind_Ok in Hrun. destruct Hrun as [x4 [Hfuse _]].
  exact (fusion_point_Ok self acts (n_stages c) x3 x4 Hs Hfuse).
Qed.

Hypothesis Htotal : ops_total T.

Lemma adaptation_forward_total (ad : adaptation) (x : T) :
  exists y, adaptation_forward ad x = Ok y.
Proof.
  destruct Htotal as [_ [_ [Hlin _]]]. destruct ad as [lin|lin sc]; simpl.
  - apply Hlin.
  - destruct (Hlin lin x) as [y ->]. simpl. eauto.
Qed.

Lemma fusion_point_total (self : USEANetDecoder) (acts : list T) (i : nat)
  (x : T) :
  (i < List.length acts)%nat ->
  (i < List.length (adaptation_layers self))%nat ->
  exists y, fusion_point self acts i x = Ok y.
Proof.
  intros Hacts Hadapt. unfold fusion_point, fusion.
  destruct (consumed_in_range acts i Hacts) as [a ->].
  destruct (adapter_in_range (adaptation_layers self) i Hadapt) as [ad ->].
  destruct Htotal as [_ [Hcat [_ Hadd]]].
  destruct (String.eqb (dec_skip_connection_type self) "cat_linear").
  - cbn [bind]. destruct (Hcat x a) as [y ->]. cbn [bind].
    destruct (adaptation_forward_total ad (transpose y)) as [y' ->].
    cbn [bind]. eauto.
  - destruct (String.eqb (dec_skip_connection_type self) "scaled_sum");
      [|eauto].
    cbn [bind].
    destruct (adaptation_forward_total ad (transpose a)) as [y ->].
    cbn [bind]. apply Hadd.
Qed.

(** The stages, when no tensor operation raises: they return when the
    activations reach as far as their last fusion point. *)
Lemma stages_forward_total (self : USEANetDecoder) (acts : list T)
  (c : Config) (act : layer) (rs : list Z) (mult : Z) (i : nat) (x : T) :
  (i + List.length rs <= List.length (adaptation_layers self))%nat ->
  (i + List.length rs <= List.length acts)%nat ->
  exists y, stages_forward self acts c act mult rs i x = Ok y.
Proof.
  revert mult i x. induction rs as [|r rs IH]; intros mult i x Hadapt Hacts.
  - now exists x.
  - cbn [stages_forward List.length] in *. unfold stage_forward.
    destruct Htotal as [Hcall _].
    destruct (Hcall act x) as [x1 ->]. cbn [bind].
    destruct (fusion_point_total self acts i x1) as [x2 ->]; [lia|lia|].
    cbn [bind]. destruct (Hcall (upsample c mult r) x2) as [x3 ->].
    cbn [bind].
    destruct (call_all_total Hcall
                (residual_blocks c (mult * n_filters c / 2)) x3) as [x4 ->].
    cbn [bind]. apply IH; lia.
Qed.

(** They raise the index error at the first fusion point the activations do
    not reach. *)
Lemma stages_forward_index_error (self : USEANetDecoder) (acts : list T)
  (c : Config) (act : layer) (rs : list Z) (mult : Z) (i : nat) (x : T) :
  supported (dec_skip_connection_type self) ->
  (i + List.length rs <= List.length (adaptation_layers self))%nat ->
  (i <= List.length acts < i + List.length rs)%nat ->
  stages_forward self acts c act mult rs i x = Raise IndexError.
Proof.
  intros Hs. revert mult i x.
  induction rs as [|r rs IH]; intros mult i x Hadapt Hacts.
  - cbn [List.length] in Hacts. lia.
  - cbn [stages_forward List.length] in *. unfold stage_forward.
    destruct Htotal as [Hcall _].
    destruct (Hcall act x) as [x1 ->]. cbn [bind].
    destruct (Nat.eq_dec i (List.length acts)) as [Heq|Hne].
    + rewrite fusion_point_index_error by (assumption || lia). reflexivity.
    + destruct (fusion_point_total self acts i x1) as [x2 ->]; [lia|lia|].
      cbn [bind]. destruct (Hcall (upsample c mult r) x2) as [x3 ->].
      cbn [bind].
      destruct (call_all_total Hcall
                  (residual_blocks c (mult * n_filters c / 2)) x3) as [x4 ->].
      cbn [bind]. apply IH; lia.
Qed.

Lemma decoder_forward_total (self : USEANetDecoder) (acts : list T)
  (c : Config) (act : layer) (final : option layer) (x : T) :
  List.length (adaptation_layers self) = (n_stages c + 1)%nat ->
  (n_stages c + 1 <= List.length acts)%nat ->
  exists y, decoder_forward self acts c act final x = Ok y.
Proof.
  intros Hadapt Hacts. unfold decoder_forward.
  pose proof Htotal as [Hcall _].
  destruct (Hcall (decoder_first c) x) as [x0 ->]. cbn [bind].
  destruct (call_all_total Hcall (lstm_layers c (top_mult c)) x0) as [x1 ->].
  cbn [bind].
  destruct (stages_forward_total self acts c act (ratios c) (top_mult c) 0 x1)
    as [x2 ->]; [unfold n_stages in *; cbn; lia ..|].
  cbn [bind]. destruct (Hcall act x2) as [x3 ->]. cbn [bind].
  destruct (fusion_point_total self acts (n_stages c) x3) as [x4 ->];
    [lia|lia|].
  cbn [bind]. destruct (Hcall (decoder_last c) x4) as [x5 ->]. cbn [bind].
  apply (call_all_total Hcall).
Qed.

Lemma decoder_forward_index_error (self : USEANetDecoder) (acts : list T)
  (c : Config) (act : layer) (final : option layer) (x : T) :
  supported (dec_skip_connection_type self) ->
  List.length (adaptation_layers self) = (n_stages c + 1)%nat ->
  (List.length acts <= n_stages c)%nat ->
  decoder_forward self acts c act final x = Raise IndexError.
Proof.
  intros Hs Hadapt Hacts. unfold decoder_forward.
  pose proof Htotal as [Hcall _].
  destruct (Hcall (decoder_first c) x) as [x0 ->]. cbn [bind].
  destruct (call_all_total Hcall (lstm_layers c (top_mult c)) x0) as [x1 ->].
  cbn [bind].
  destruct (Nat.eq_dec (List.length acts) (n_stages c)) as [Heq|Hne].
  - destruct (stages_forward_total self acts c act (ratios c) (top_mult c)
                0 x1) as [x2 ->]; [unfold n_stages in *; cbn; lia ..|].
    cbn [bind]. destruct (Hcall act x2) as [x3 ->]. cbn [bind].
    rewrite fusion_point_index_error by (assumption || lia). reflexivity.
  - rewrite stages_forward_index_error;
      [reflexivity | exact Hs | unfold n_stages in *; cbn; lia ..].
Qed.

End ActivationsNeeded.

Lemma graph_ops_total : ops_total graph.
Proof. repeat split; intros; eexists; reflexivity. Qed.

(** The loop over the decoder's list up to the last convolution, for the
    class ELU. *)
Lemma dec_loop_body {T : Type} `{TensorOps T} (self : USEANetDecoder)
  (acts : list T) (c : Config) (x : T) :
  dec_loop self acts (decoder_layers c (Act "ELU")) x 0 =
  x' <- decoder_forward self acts c (Act "ELU") None x ;;
  Ok (x', Z.of_nat (n_stages c + 1)).
Proof.
  pose proof (dec_loop_decoder_layers self acts c None x (Forall_nil _))
    as Hbody.
  cbn [final_layers] in Hbody. now rewrite app_nil_r in Hbody.
Qed.

(** A decoder built with the class ELU needs at least [n + 1] activations:
    given [n] or fewer, [forward] never returns, and when no tensor
    operation raises before, it raises the index error (at the first fusion
    point the list does not reach). *)
Theorem decoder_needs_activations {T : Type} `{TensorOps T}
  (torch_nn : string -> option string) (c : Config) (self : USEANetDecoder)
  (acts : list T) (x : T) :
  torch_nn (activation c) = Some "ELU" ->
  USEANetDecoder_init torch_nn c = Ok self ->
  (List.length acts <= List.length (ratios c))%nat ->
  (exists e, USEANetDecoder_forward self (x, acts) = Raise e) /\
  (ops_total T -> USEANetDecoder_forward self (x, acts) = Raise IndexError).
Proof.
  intros Hact Hinit Hlen.
  destruct (USEANetDecoder_init_Ok torch_nn c self Hinit)
    as [cls [final [Hcls [Hs [_ ->]]]]].
  assert (cls = "ELU") as -> by congruence.
  unfold USEANetDecoder_forward. cbn [dec_model].
  rewrite dec_loop_app, dec_loop_body. split.
  - destruct (decoder_forward _ acts c (Act "ELU") None x) as [y|e] eqn:Hrun.
    + apply decoder_forward_Ok in Hrun; [|exact Hs].
      unfold n_stages in Hrun. lia.
    + now exists e.
  - intros Htotal.
    rewrite (decoder_forward_index_error Htotal); [reflexivity|exact Hs| |].
    + cbn [adaptation_layers]. rewrite length_app, stage_adapters_length.
      reflexivity.
    + exact Hlen.
Qed.

Lemma decoder_needs_activations_witness :
  exists self,
    USEANetDecoder_init torch_nn_sample one_stage_config = Ok self /\
    USEANetDecoder_forward self (GInput "z", [GInput "a"])
    = Raise IndexError.
Proof.
  pose proof (USEANetDecoder_init_closed torch_nn_sample one_stage_config
                "ELU" None eq_refl (or_introl eq_refl) eq_refl) as Hinit.
  eexists. split; [exact Hinit|].
  exact (proj2 (@decoder_needs_activations graph graph_ops torch_nn_sample
                  one_stage_config _ [GInput "a"] (GInput "z") eq_refl Hinit
                  (Nat.le_refl _))
           graph_ops_total).
Defined.

(** Encoder and decoder agree on the number of activations: for two
    configurations of class ELU with as many ratios each, and no final
    activation of class ELU, the decoder finds every activation and every
    adaptation layer it indexes in what the encoder returned.  When no
    tensor operation raises, the encoder returns [n + 1] activations and
    the decoder returns on them. *)
Theorem pipeline_returns {T : Type} `{TensorOps T}
  (torch_nn : string -> option string) (ce cd : Config)
  (enc : USEANetEncoder) (dec : USEANetDecoder) (x : T) :
  ops_total T ->
  torch_nn (activation ce) = Some "ELU" ->
  torch_nn (activation cd) = Some "ELU" ->
  final_not_ELU torch_nn cd ->
  List.length (ratios cd) = List.length (ratios ce) ->
  USEANetEncoder_init torch_nn ce = Ok enc ->
  USEANetDecoder_init torch_nn cd = Ok dec ->
  exists z acts y,
    USEANetEncoder_forward enc x = Ok (z, acts) /\
    List.length acts = (List.length (ratios ce) + 1)%nat /\
    USEANetDecoder_forward dec (z, acts) = Ok y.
Proof.
  intros Htotal Hce Hcd Hfinal Hn Henc Hdec.
  rewrite (USEANetEncoder_init_closed torch_nn ce "ELU" Hce) in Henc.
  injection Henc as <-.
  destruct (USEANetDecoder_init_Ok torch_nn cd dec Hdec)
    as [cls [final [Hcls [Hs [Hres ->]]]]].
  assert (cls = "ELU") as -> by congruence.
  pose proof (final_layers_resolved torch_nn cd final Hfinal Hres) as Hno.
  unfold USEANetEncoder_forward. cbn [enc_model].
  rewrite enc_loop_encoder_layers.
  destruct (encoder_forward_total (proj1 Htotal) ce (Act "ELU") x)
    as [z [acts Hrun]].
  pose proof (encoder_forward_length ce (Act "ELU") x z acts Hrun) as Hlen.
  exists z, acts.
  unfold USEANetDecoder_forward. cbn [dec_model].
  rewrite dec_loop_decoder_layers by exact Hno.
  match goal with
  | |- context [decoder_forward ?s acts cd (Act "ELU") final z] =>
      destruct (decoder_forward_total Htotal s acts cd (Act "ELU") final z)
        as [y Hy]
  end.
  - cbn [adaptation_layers]. rewrite length_app, stage_adapters_length.
    reflexivity.
  - unfold n_stages. lia.
  - exists y. split; [exact Hrun|]. split; [exact Hlen|].
    rewrite Hy. reflexivity.
Qed.

Lemma pipeline_returns_witness :
  exists enc dec z acts y,
    USEANetEncoder_init torch_nn_sample
      (config_with [3] "ELU" None "cat_linear") = Ok enc /\
    USEANetDecoder_init torch_nn_sample tanh_config = Ok dec /\
    USEANetEncoder_forward enc (GInput "x") = Ok (z, acts) /\
    USEANetDecoder_forward dec (z, acts) = Ok y.
Proof.
  pose proof (USEANetEncoder_init_closed torch_nn_sample
                (config_with [3] "ELU" None "cat_linear") "ELU" eq_refl)
    as Henc.
  pose proof (USEANetDecoder_init_closed torch_nn_sample tanh_config
                "ELU" (Some (Act "Tanh")) eq_refl (or_introl eq_refl)
                (ex_intro _ "Tanh" (conj eq_refl eq_refl))) as Hdec.
  assert (Hfinal : final_not_ELU torch_nn_sample tanh_config)
    by (cbv; discriminate).
  destruct (@pipeline_returns graph graph_ops torch_nn_sample
              (config_with [3] "ELU" None "cat_linear") tanh_config _ _
              (GInput "x") graph_ops_total eq_refl eq_refl Hfinal eq_refl
              Henc Hdec) as [z [acts [y [Hfwd [_ Hback]]]]].
  eexists. eexists. exists z, acts, y.
  split; [exact Henc|]. split; [exact Hdec|]. split; assumption.
Defined.

(** ** Which activations the decoder reads *)

Lemma consumed_app {A : Type} (extra acts : list A) (i : nat) :
  (i < List.length acts)%nat ->
  consumed (extra ++ acts) i = consumed acts i.
Proof.
  intros Hlt. unfold consumed. rewrite length_app.
  replace (i <? List.length extra + List.length acts)%nat with true
    by (symmetry; apply Nat.ltb_lt; lia).
  replace (i <? List.length acts)%nat with true
    by (symmetry; apply Nat.ltb_lt; lia).
  rewrite nth_error_app2 by lia.
  now replace (List.length extra + List.length acts - 1 - i
               - List.length extra)%nat
    with (List.length acts - 1 - i)%nat by lia.
Qed.

Section ActivationsRead.

Context {T : Type} `{TensorOps T}.

Lemma fusion_point_ext (self : USEANetDecoder) (acts1 acts2 : list T)
  (i : nat) (x : T) :
  consumed acts1 i = consumed acts2 i ->
  fusion_point self acts1 i x = fusion_point self acts2 i x.
Proof. intros Heq. unfold fusion_point. now rewrite Heq. Qed.

Lemma stages_forward_ext (self : USEANetDecoder) (acts1 acts2 : list T)
  (c : Config) (act : layer) (rs : list Z) (mult : Z) (i : nat) (x : T) :
  (forall j, (j < List.length rs)%nat ->
             consumed acts1 (i + j) = consumed acts2 (i + j)) ->
  stages_forward self acts1 c act mult rs i x =
  stages_forward self acts2 c act mult rs i x.
Proof.
  revert mult i x. induction rs as [|r rs IH]; intros mult i x Heq;
    [reflexivity|].
  cbn [stages_forward]. unfold stage_forward.
  destruct (call act x) as [x1|e]; [|reflexivity]. cbn [bind].
  rewrite (fusion_point_ext self acts1 acts2 i x1)
    by (rewrite <- (Nat.add_0_r i); apply Heq; cbn; lia).
  destruct (fusion_point self acts2 i x1) as [x2|e]; [|reflexivity].
  cbn [bind]. destruct (call (upsample c mult r) x2) as [x3|e];
    [|reflexivity].
  cbn [bind].
  destruct (call_all (residual_blocks c (mult * n_filters c / 2)) x3)
    as [x4|e]; [|reflexivity].
  cbn [bind]. apply IH. intros j Hj.
  replace (S i + j)%nat with (i + S j)%nat by lia. apply Heq. cbn. lia.
Qed.

Lemma decoder_forward_ext (self : USEANetDecoder) (acts1 acts2 : list T)
  (c : Config) (act : layer) (final : option layer) (x : T) :
  (forall j, (j <= n_stages c)%nat -> consumed acts1 j = consumed acts2 j) ->
  decoder_forward self acts1 c act final x =
  decoder_forward self acts2 c act final x.
Proof.
  intros Heq. unfold decoder_forward.
  destruct (call (decoder_first c) x) as [x0|e]; [|reflexivity]. cbn [bind].
  destruct (call_all (lstm_layers c (top_mult c)) x0) as [x1|e];
    [|reflexivity].
  cbn [bind].
  rewrite (stages_forward_ext self acts1 acts2)
    by (intros j Hj; apply Heq; unfold n_stages; cbn; lia).
  destruct (stages_forward self acts2 c act (top_mult c) (ratios c) 0 x1)
    as [x2|e]; [|reflexivity].
  cbn [bind]. destruct (call act x2) as [x3|e]; [|reflexivity]. cbn [bind].
  now rewrite (fusion_point_ext self acts1 acts2 (n_stages c) x3)
    by (apply Heq; lia).
Qed.

End ActivationsRead.

(** A decoder built with the class ELU, without a final activation of that
    class, reads only the last [n + 1] entries of the activation list:
    whatever stands before them changes nothing. *)
Theorem surplus_activations_ignored {T : Type} `{TensorOps T}
  (torch_nn : string -> option string) (c : Config) (self : USEANetDecoder)
  (extra acts : list T) (x : T) :
  torch_nn (activation c) = Some "ELU" ->
  final_not_ELU torch_nn c ->
  USEANetDecoder_init torch_nn c = Ok self ->
  (List.length (ratios c) + 1 <= List.length acts)%nat ->
  USEANetDecoder_forward self (x, extra ++ acts) =
  USEANetDecoder_forward self (x, acts).
Proof.
  intros Hact Hfinal Hinit Hlen.
  destruct (USEANetDecoder_init_Ok torch_nn c self Hinit)
    as [cls [final [Hcls [_ [Hres ->]]]]].
  assert (cls = "ELU") as -> by congruence.
  pose proof (final_layers_resolved torch_nn c final Hfinal Hres) as Hno.
  unfold USEANetDecoder_forward. cbn [dec_model].
  rewrite !dec_loop_decoder_layers by exact Hno.
  rewrite (decoder_forward_ext _ (extra ++ acts) acts); [reflexivity|].
  intros j Hj. apply consumed_app. unfold n_stages in Hj. lia.
Qed.

Lemma surplus_activations_ignored_witness :
  exists self,
    USEANetDecoder_init torch_nn_sample one_stage_config = Ok self /\
    USEANetDecoder_forward self
      (GInput "z", [GInput "stale"; GInput "a0"; GInput "a1"]) =
    USEANetDecoder_forward self (GInput "z", [GInput "a0"; GInput "a1"]).
Proof.
  pose proof (USEANetDecoder_init_closed torch_nn_sample one_stage_config
                "ELU" None eq_refl (or_introl eq_refl) eq_refl) as Hinit.
  eexists. split; [exact Hinit|].
  exact (@surplus_activations_ignored graph graph_ops torch_nn_sample
           one_stage_config _ [GInput "stale"] [GInput "a0"; GInput "a1"]
           (GInput "z") eq_refl I Hinit (Nat.le_refl _)).
Defined.

(** ** What the two fusions compute *)

Lemma fold_sum_from (f : Z -> Q) (l : list Z) (a : Q) :
  (fold_left (fun acc k => acc + f k) l a
   == a + fold_left (fun acc k => acc + f k) l 0)%Q.
Proof.
  revert a. induction l as [|k l IH]; intros a; cbn [fold_left].
  - ring.
  - rewrite (IH (a + f k)%Q), (IH (0 + f k)%Q). ring.
Qed.

Lemma fold_sum_ext (f g : Z -> Q) (l : list Z) (a : Q) :
  (forall k, In k l -> (f k == g k)%Q) ->
  (fold_left (fun acc k => acc + f k) l a
   == fold_left (fun acc k => acc + g k) l a)%Q.
Proof.
  revert a. induction l as [|k l IH]; intros a Hfg; cbn [fold_left].
  - reflexivity.
  - rewrite (fold_sum_from f l), (fold_sum_from g l).
    rewrite (Hfg k (or_introl eq_refl)).
    rewrite (IH 0%Q) by (intros j Hj; apply Hfg; now right).
    reflexivity.
Qed.

Lemma range_bounds (n k : Z) : In k (range n) -> 0 <= k < n.
Proof.
  unfold range. rewrite in_map_iff. intros [j [<- Hj]].
  apply in_seq in Hj. lia.
Qed.

Lemma seq_offset (a b : nat) : seq a b = map (Nat.add a) (seq 0 b).
Proof.
  revert a. induction b as [|b IH]; intros a; [reflexivity|].
  cbn [seq map]. rewrite Nat.add_0_r. f_equal.
  replace (seq 1 b) with (map S (seq 0 b)) by apply seq_shift.
  rewrite map_map, (IH (S a)).
  apply map_ext. intros j. lia.
Qed.

Lemma range_app (n m : Z) :
  0 <= n -> 0 <= m -> range (n + m) = range n ++ map (Z.add n) (range m).
Proof.
  intros Hn Hm. unfold range.
  rewrite Z2Nat.inj_add by assumption.
  rewrite seq_app, map_app. f_equal. cbn [Nat.add].
  rewrite seq_offset, !map_map. apply map_ext. intros j. lia.
Qed.

Lemma qsum_ext (f g : Z -> Q) (n : Z) :
  (forall k, 0 <= k < n -> (f k == g k)%Q) -> (qsum f n == qsum g n)%Q.
Proof.
  intros Hfg. unfold qsum. apply fold_sum_ext.
  intros k Hk. apply Hfg. now apply range_bounds.
Qed.

(** A sum over [n + m] channels is the sum over the first [n] and the sum
    over the following [m]. *)
Lemma qsum_split (f : Z -> Q) (n m : Z) :
  0 <= n -> 0 <= m ->
  (qsum f (n + m)%Z == qsum f n + qsum (fun k => f (n + k)%Z) m)%Q.
Proof.
  intros Hn Hm. unfold qsum. rewrite range_app by assumption.
  rewrite fold_left_app, fold_sum_from.
  apply Qplus_comp; [reflexivity|].
  generalize 0%Q. induction (range m) as [|k l IH]; intros a;
    cbn [map fold_left]; [reflexivity | apply IH].
Qed.

(** In any decoder, fresh or trained, a scaled-sum fusion step adds to
    every entry of the decoder tensor the projection of the encoder
    activation's channels at the same batch and time index, times the
    scale; the shape stays the decoder tensor's. *)
Theorem scaled_sum_fusion_entries
  (layer_fn : layer -> tensor -> result tensor)
  (weight : Linear -> Z -> Z -> Q) (bias : Linear -> Z -> Q)
  (self : USEANetDecoder) (acts : list tensor) (i : nat) (x a : tensor)
  (lin : Linear) (sc : ScaleLayer) (b t : Z) :
  dec_skip_connection_type self = "scaled_sum" ->
  nth_error (adaptation_layers self) i = Some (AdSequential lin sc) ->
  py_getitem acts (-1 - Z.of_nat i) = Ok a ->
  tshape a = Shape b (in_features lin) t ->
  tshape x = Shape b (out_features lin) t ->
  exists x',
    @fuse tensor (tensor_ops layer_fn weight bias) self acts (Z.of_nat i) x
    = Ok x' /\
    tshape x' = tshape x /\
    forall b0 o t0,
      0 <= b0 < b -> 0 <= o < out_features lin -> 0 <= t0 < t ->
      (entry x' b0 o t0 ==
       entry x b0 o t0
       + projection weight bias lin o (fun k => entry a b0 k t0)
           (in_features lin) * scale sc)%Q.
Proof.
  intros Hsk Hnth Hget Ha Hx. unfold fuse. rewrite Hsk.
  change (String.eqb "scaled_sum" "cat_linear") with false.
  change (String.eqb "scaled_sum" "scaled_sum") with true. cbv iota.
  rewrite Hget. cbn [bind].
  rewrite (py_getitem_nonneg _ i _ Hnth). cbn [bind].
  unfold adaptation_forward, ScaleLayer_forward.
  cbn [linear mul_scalar transpose add tensor_ops].
  unfold tensor_linear, shape_linear, tensor_add, tensor_mul_scalar,
    tensor_transpose, shape_transpose.
  cbn [tshape entry]. rewrite Ha. cbn [dim0 dim1 dim2].
  rewrite Z.eqb_refl. cbn [bind tshape entry dim0 dim1 dim2].
  rewrite Hx, broadcast_same. cbn [bind dim0 dim1 dim2].
  eexists. split; [reflexivity|]. cbn [tshape entry].
  split; [reflexivity|].
  intros b0 o t0 Hb Ho Ht.
  rewrite !bidx_inside by assumption.
  unfold projection. reflexivity.
Qed.

Lemma scaled_sum_fusion_entries_witness :
  exists x',
    @fuse tensor (tensor_ops identity_layers ones_weight ones_bias)
      {| dec_ratios := [2]; dec_hop_length := 2;
         dec_skip_connection_type := "scaled_sum";
         dec_model := [];
         adaptation_layers :=
           [AdSequential {| in_features := 2; out_features := 3 |}
                         {| scale := 5 |}] |}
      [ramp (Shape 1 2 4)] 0 (ramp (Shape 1 3 4)) = Ok x' /\
    (entry x' 0 1 2 == 3 + ((2 + 3) + 1) * 5)%Q.
Proof.
  destruct (scaled_sum_fusion_entries identity_layers ones_weight ones_bias
              {| dec_ratios := [2]; dec_hop_length := 2;
                 dec_skip_connection_type := "scaled_sum";
                 dec_model := [];
                 adaptation_layers :=
                   [AdSequential {| in_features := 2; out_features := 3 |}
                                 {| scale := 5 |}] |}
              [ramp (Shape 1 2 4)] 0%nat (ramp (Shape 1 3 4))
              (ramp (Shape 1 2 4)) {| in_features := 2; out_features := 3 |}
              {| scale := 5 |} 1 4 eq_refl eq_refl eq_refl eq_refl eq_refl)
    as [x' [Hrun [_ Hentries]]].
  exists x'. split; [exact Hrun|].
  rewrite (Hentries 0 1 2) by (cbn; lia).
  vm_compute. reflexivity.
Defined.

(** In any decoder a concatenate-and-project fusion step computes, for
    every output channel, one projection whose first weights meet the
    decoder tensor's channels and whose following weights meet the encoder
    activation's channels; the result has [out_features] channels. *)
Theorem cat_linear_fusion_entries
  (layer_fn : layer -> tensor -> result tensor)
  (weight : Linear -> Z -> Z -> Q) (bias : Linear -> Z -> Q)
  (self : USEANetDecoder) (acts : list tensor) (i : nat) (x a : tensor)
  (lin : Linear) (b cx ca t : Z) :
  dec_skip_connection_type self = "cat_linear" ->
  nth_error (adaptation_layers self) i = Some (AdLinear lin) ->
  py_getitem acts (-1 - Z.of_nat i) = Ok a ->
  tshape x = Shape b cx t ->
  tshape a = Shape b ca t ->
  0 <= cx -> 0 <= ca ->
  in_features lin = cx + ca ->
  exists x',
    @fuse tensor (tensor_ops layer_fn weight bias) self acts (Z.of_nat i) x
    = Ok x' /\
    tshape x' = Shape b (out_features lin) t /\
    forall b0 o t0,
      (entry x' b0 o t0 ==
       qsum (fun k => entry x b0 k t0 * weight lin o k) cx
       + qsum (fun k => entry a b0 k t0 * weight lin o (cx + k)%Z) ca
       + bias lin o)%Q.
Proof.
  intros Hsk Hnth Hget Hx Ha Hcx Hca Hin. unfold fuse. rewrite Hsk.
  change (String.eqb "cat_linear" "cat_linear") with true. cbv iota.
  rewrite Hget. cbn [bind cat tensor_ops].
  unfold tensor_cat, shape_cat. rewrite Hx, Ha. cbn [dim0 dim1 dim2].
  rewrite !Z.eqb_refl. cbn [andb bind].
  rewrite (py_getitem_nonneg _ i _ Hnth). cbn [bind].
  unfold adaptation_forward. cbn [linear transpose tensor_ops].
  unfold tensor_linear, shape_linear, tensor_transpose, shape_transpose.
  cbn [tshape entry dim0 dim1 dim2].
  replace (cx + ca =? in_features lin) with true
    by (symmetry; apply Z.eqb_eq; lia).
  cbn [bind tshape entry dim0 dim1 dim2].
  eexists. split; [reflexivity|]. cbn [tshape entry].
  split; [reflexivity|].
  intros b0 o t0. rewrite Hin.
  rewrite qsum_split by assumption.
  apply Qplus_comp; [|reflexivity]. apply Qplus_comp.
  - apply qsum_ext. intros k Hk.
    replace (k <? cx) with true by (symmetry; apply Z.ltb_lt; lia).
    reflexivity.
  - apply qsum_ext. intros k Hk.
    replace (cx + k <? cx) with false by (symmetry; apply Z.ltb_ge; lia).
    replace (cx + k - cx) with k by lia.
    reflexivity.
Qed.

Lemma cat_linear_fusion_entries_witness :
  exists x',
    @fuse tensor (tensor_ops identity_layers ones_weight ones_bias)
      {| dec_ratios := [2]; dec_hop_length := 2;
         dec_skip_connection_type := "cat_linear";
         dec_model := [];
         adaptation_layers :=
           [AdLinear {| in_features := 5; out_features := 3 |}] |}
      [ramp (Shape 1 2 4)] 0 (ramp (Shape 1 3 4)) = Ok x' /\
    tshape x' = Shape 1 3 4 /\
    (entry x' 0 1 2 == (2 + 3 + 4) + (2 + 3) + 1)%Q.
Proof.
  destruct (cat_linear_fusion_entries identity_layers ones_weight ones_bias
              {| dec_ratios := [2]; dec_hop_length := 2;
                 dec_skip_connection_type := "cat_linear";
                 dec_model := [];
                 adaptation_layers :=
                   [AdLinear {| in_features := 5; out_features := 3 |}] |}
              [ramp (Shape 1 2 4)] 0%nat (ramp (Shape 1 3 4))
              (ramp (Shape 1 2 4)) {| in_features := 5; out_features := 3 |}
              1 3 2 4 eq_refl eq_refl eq_refl eq_refl eq_refl)
    as [x' [Hrun [Hshape Hentries]]]; [lia | lia | reflexivity |].
  exists x'. split; [exact Hrun|]. split; [exact Hshape|].
  rewrite (Hentries 0 1 2). vm_compute. reflexivity.
Defined.

(** ** Ratios and hop length *)



(** ** Where the encoder can fail *)

(** [USEANetEncoder.forward] has no failure of its own: an exception it
    raises was raised by one of the layers of its list, called on some
    tensor. *)
Theorem encoder_raises_only_layers {T : Type} `{TensorOps T}
  (self : USEANetEncoder) (x : T) (e : exn) :
  USEANetEncoder_forward self x = Raise e ->
  exists l y, In l (enc_model self) /\ call l y = Raise e.
Proof.
  unfold USEANetEncoder_forward. generalize (@nil T) as acts.
  revert x. induction (enc_model self) as [|l ls IH]; intros x acts Hrun.
  - discriminate Hrun.
  - cbn [enc_loop] in Hrun. destruct (call l x) as [x'|e'] eqn:Hcall.
    + cbn [bind] in Hrun. apply IH in Hrun.
      destruct Hrun as [l' [y [Hin Hl']]]. exists l', y.
      split; [now right | exact Hl'].
    + cbn [bind] in Hrun. injection Hrun as ->. exists l, x.
      split; [now left | exact Hcall].
Qed.

Lemma encoder_raises_only_layers_witness :
  exists enc l y,
    USEANetEncoder_init torch_nn_sample default_config = Ok enc /\
    In l (enc_model enc) /\
    shape_call l y = Raise RuntimeError.
Proof.
  pose proof (USEANetEncoder_init_closed torch_nn_sample default_config "ELU"
                eq_refl) as Henc.
  destruct (@encoder_raises_only_layers shape shape_ops
              (encoder_built default_config "ELU") (Shape 1 2 320)
              RuntimeError eq_refl) as [l [y [Hin Hcall]]].
  exists (encoder_built default_config "ELU"), l, y.
  split; [exact Henc|]. split; assumption.
Defined.

(** ** Widths at the fusion points *)

(** Concatenate-and-project on shapes: the fusion succeeds exactly when the
    two tensors agree in batch and time and their channels add up to the
    adapter's [in_features]. *)
Lemma cat_linear_shape (lin : Linear) (x a y : shape) :
  fusion "cat_linear" (Ok a) (Ok (AdLinear lin)) x = Ok y ->
  dim0 a = dim0 x /\ dim2 a = dim2 x /\
  dim1 x + dim1 a = in_features lin /\
  y = Shape (dim0 x) (out_features lin) (dim2 x).
Proof.
  unfold fusion. change (String.eqb "cat_linear" "cat_linear") with true.
  cbv iota. cbn [bind cat shape_ops]. unfold shape_cat.
  destruct (Z.eqb_spec (dim0 x) (dim0 a)) as [H0|H0];
    [|cbn [andb bind]; discriminate].
  destruct (Z.eqb_spec (dim2 x) (dim2 a)) as [H2|H2];
    [|cbn [andb bind]; discriminate].
  cbn [andb bind transpose shape_ops adaptation_forward linear].
  unfold shape_linear, shape_transpose. cbn [dim0 dim1 dim2].
  destruct (Z.eqb_spec (dim1 x + dim1 a) (in_features lin)) as [Hin|Hin];
    [|cbn [bind]; discriminate].
  cbn [bind dim0 dim1 dim2]. intros [= <-]. auto.
Qed.

(** Under 'cat_linear' a fusion of the built decoder that succeeds on
    shapes was at a fusion point [i <= n], on two tensors of the same batch
    and time; in a stage ([i < n]) their channels add up to
    [2 * 2 ^ (n - i) * n_filters], so that a decoder tensor of its regular
    width asks for an encoder activation of that same width, and
    [n_filters_encoder] plays no part; at the last fusion point they add up
    to [n_filters + n_filters_encoder]. *)
Theorem cat_linear_widths (torch_nn : string -> option string) (c : Config)
  (self : USEANetDecoder) (acts : list shape) (i : nat) (x a y : shape) :
  skip_connection_type c = "cat_linear" ->
  USEANetDecoder_init torch_nn c = Ok self ->
  py_getitem acts (-1 - Z.of_nat i) = Ok a ->
  fuse self acts (Z.of_nat i) x = Ok y ->
  (i <= List.length (ratios c))%nat /\
  dim0 a = dim0 x /\ dim2 a = dim2 x /\
  dim1 x + dim1 a =
    (if (i <? List.length (ratios c))%nat
     then 2 * 2 ^ Z.of_nat (List.length (ratios c) - i) * n_filters c
     else n_filters c + n_filters_encoder c) /\
  y = Shape (dim0 x)
        (2 ^ Z.of_nat (List.length (ratios c) - i) * n_filters c) (dim2 x).
Proof.
  intros Hsk Hinit Hget Hrun.
  destruct (USEANetDecoder_init_Ok torch_nn c self Hinit)
    as [cls [final [_ [_ [_ ->]]]]].
  rewrite fuse_fusion_point in Hrun. unfold fusion_point in Hrun.
  cbn [dec_skip_connection_type adaptation_layers] in Hrun.
  rewrite <- py_getitem_consumed, Hget, Hsk in Hrun.
  assert (Hi : (i <= List.length (ratios c))%nat).
  { destruct (Nat.le_gt_cases i (List.length (ratios c))) as [Hle|Hgt];
      [exact Hle|].
    exfalso. revert Hrun. unfold adapter_at.
    replace (nth_error _ i) with (@None adaptation)
      by (symmetry; apply nth_error_None;
          rewrite length_app, stage_adapters_length; cbn [List.length]; lia).
    unfold fusion. change (String.eqb "cat_linear" "cat_linear") with true.
    cbv iota. cbn [bind cat shape_ops].
    destruct (shape_cat x a); discriminate. }
  split; [exact Hi|].
  unfold adapter_at in Hrun.
  rewrite nth_adaptation_layers in Hrun by exact Hi.
  unfold stage_adapter, final_adapter in Hrun. rewrite Hsk in Hrun.
  change (String.eqb "cat_linear" "cat_linear") with true in Hrun.
  cbv iota in Hrun.
  destruct (Nat.ltb_spec i (List.length (ratios c))) as [Hlt|Hge].
  - apply cat_linear_shape in Hrun.
    cbn [in_features out_features] in Hrun. exact Hrun.
  - apply cat_linear_shape in Hrun.
    cbn [in_features out_features] in Hrun.
    replace (List.length (ratios c) - i)%nat with 0%nat by lia.
    replace (2 ^ Z.of_nat 0 * n_filters c) with (n_filters c)
      by (cbn [Z.of_nat]; lia).
    exact Hrun.
Qed.

Lemma cat_linear_widths_witness :
  exists self,
    USEANetDecoder_init torch_nn_sample one_stage_config = Ok self /\
    dim1 (Shape 1 64 5) + dim1 (Shape 1 64 5) = 2 * 2 ^ 1 * 32.
Proof.
  pose proof (USEANetDecoder_init_closed torch_nn_sample one_stage_config
                "ELU" None eq_refl (or_introl eq_refl) eq_refl) as Hinit.
  eexists. split; [exact Hinit|].
  exact (proj1 (proj2 (proj2 (proj2
           (cat_linear_widths torch_nn_sample one_stage_config _
              [Shape 1 32 10; Shape 1 64 5] 0%nat (Shape 1 64 5)
              (Shape 1 64 5) (Shape 1 64 5) eq_refl Hinit eq_refl
              eq_refl))))).
Defined.

(** ** The shapes the encoder hands over *)

(** On the shape behaviour of the imported layers as the specification
    gives it: an encoder of class ELU with positive ratios, run on
    [(b, channels, t * prod ratios)], returns the latent
    [(b, dimension, t)] and [n + 1] activations, the one at position [j] of
    width [2 ^ j * n_filters] and of the time length [t] times the first
    [n - j] ratios: the input's length for [j = 0], the latent's for
    [j = n]. *)
Theorem encoder_shapes (torch_nn : string -> option string) (c : Config)
  (enc : USEANetEncoder) (b t : Z) :
  Forall (fun r => 0 < r) (ratios c) ->
  torch_nn (activation c) = Some "ELU" ->
  USEANetEncoder_init torch_nn c = Ok enc ->
  exists acts,
    USEANetEncoder_forward enc (Shape b (channels c) (t * prod (ratios c)))
    = Ok (Shape b (dimension c) t, acts) /\
    List.length acts = (List.length (ratios c) + 1)%nat /\
    forall j, (j <= List.length (ratios c))%nat ->
      nth_error acts j =
      Some (Shape b (2 ^ Z.of_nat j * n_filters c)
              (t * prod (firstn (List.length (ratios c) - j) (ratios c)))).
Proof.
  intros Hpos Hact Hinit.
  rewrite (USEANetEncoder_init_closed torch_nn c "ELU" Hact) in Hinit.
  injection Hinit as <-. unfold USEANetEncoder_forward. cbn [enc_model].
  rewrite enc_loop_encoder_layers_shape by exact Hpos.
  unfold captured. change (String.eqb "ELU" "ELU") with true. cbv iota.
  eexists. split; [reflexivity|]. split.
  - rewrite length_app, enc_captures_length, length_rev. reflexivity.
  - intros j Hj.
    destruct (Nat.eq_dec j (List.length (ratios c))) as [->|Hne].
    + rewrite nth_error_app2
        by (rewrite enc_captures_length, length_rev; lia).
      rewrite enc_captures_length, length_rev, !Nat.sub_diag.
      cbn [nth_error firstn]. unfold top_mult, n_stages.
      replace (t * prod []) with t by (unfold prod; cbn [fold_left]; lia).
      reflexivity.
    + rewrite nth_error_app1
        by (rewrite enc_captures_length, length_rev; lia).
      rewrite nth_enc_captures by (rewrite length_rev; lia).
      rewrite skipn_rev, prod_rev. do 2 f_equal. lia.
Qed.

Lemma encoder_shapes_witness :
  exists enc acts,
    USEANetEncoder_init torch_nn_sample default_config = Ok enc /\
    USEANetEncoder_forward enc (Shape 1 1 640) = Ok (Shape 1 128 2, acts) /\
    nth_error acts 1 = Some (Shape 1 64 320).
Proof.
  pose proof (USEANetEncoder_init_closed torch_nn_sample default_config "ELU"
                eq_refl) as Henc.
  assert (Hpos : Forall (fun r => 0 < r) (ratios default_config))
    by (repeat constructor).
  destruct (encoder_shapes torch_nn_sample default_config _ 1 2 Hpos eq_refl
              Henc) as [acts [Hrun [_ Hnth]]].
  eexists. exists acts. split; [exact Henc|]. split; [exact Hrun|].
  exact (Hnth 1%nat ltac:(cbn; lia)).
Defined.

(** ** Widths in the layer lists *)

Lemma resamples_residual_blocks (c : Config) (dim : Z) :
  Forall resamples_by_two (residual_blocks c dim).
Proof.
  unfold residual_blocks. apply Forall_map, Forall_forall. intros j _.
  exact I.
Qed.

Lemma resamples_lstm_layers (c : Config) (mult : Z) :
  Forall resamples_by_two (lstm_layers c mult).
Proof.
  unfold lstm_layers. destruct (lstm c =? 0); repeat constructor.
Qed.

Lemma resamples_conv_stride1 (cin cout k : Z) (o : conv_opts) :
  resamples_by_two (SConv1d cin cout k 1 o).
Proof. cbn [resamples_by_two]. now left. Qed.

Lemma resamples_pair (l1 l2 : layer) :
  resamples_by_two l1 -> resamples_by_two l2 ->
  Forall resamples_by_two [l1; l2].
Proof. intros H1 H2. constructor; [exact H1|]. now constructor. Qed.

Lemma resamples_encoder_stages (c : Config) (cls : string) (mult : Z)
  (rs : list Z) :
  Forall resamples_by_two (encoder_stages c (Act cls) mult rs).
Proof.
  revert mult. induction rs as [|r rs IH]; intros mult; [constructor|].
  cbn [encoder_stages]. unfold encoder_stage.
  apply Forall_app. split; [|apply IH].
  apply Forall_app. split; [apply resamples_residual_blocks|].
  apply resamples_pair; [exact I|].
  unfold downsample. cbn [resamples_by_two]. right. split; ring.
Qed.

Lemma resamples_decoder_stages (c : Config) (cls : string) (rs : list Z) :
  Forall resamples_by_two
    (decoder_stages c (Act cls) (2 ^ Z.of_nat (List.length rs)) rs).
Proof.
  induction rs as [|r rs IH]; [constructor|].
  cbn [decoder_stages List.length]. rewrite pow2_half. unfold decoder_stage.
  apply Forall_app. split; [|exact IH].
  apply Forall_app. split; [|apply resamples_residual_blocks].
  apply resamples_pair; [exact I|].
  unfold upsample. cbn [resamples_by_two]. split; [|lia].
  rewrite Nat2Z.inj_succ, Z.pow_succ_r by lia.
  replace (2 * 2 ^ Z.of_nat (List.length rs) * n_filters c)
    with (2 ^ Z.of_nat (List.length rs) * n_filters c * 2) by lia.
  rewrite Z.div_mul by lia. lia.
Qed.

(** In a built encoder every strided convolution doubles the width, and in
    a built decoder every transposed convolution halves it, exactly: the
    floor division [mult * n_filters // 2] never rounds, whatever
    [n_filters]; all of them have a kernel of twice their stride. *)
Theorem resampling_widths (torch_nn : string -> option string) (c : Config)
  (enc : USEANetEncoder) (dec : USEANetDecoder) :
  USEANetEncoder_init torch_nn c = Ok enc ->
  USEANetDecoder_init torch_nn c = Ok dec ->
  Forall resamples_by_two (enc_model enc) /\
  Forall resamples_by_two (dec_model dec).
Proof.
  intros Henc Hdec.
  destruct (USEANetEncoder_init_Ok torch_nn c enc Henc) as [cls [_ ->]].
  destruct (USEANetDecoder_init_Ok torch_nn c dec Hdec)
    as [cls' [final [_ [_ [Hres ->]]]]].
  cbn [enc_model dec_model]. split.
  - unfold encoder_layers, encoder_first, encoder_last.
    apply Forall_app. split;
      [constructor; [apply resamples_conv_stride1 | constructor]|].
    apply Forall_app. split; [apply resamples_encoder_stages|].
    apply Forall_app. split; [apply resamples_lstm_layers|].
    apply resamples_pair; [exact I | apply resamples_conv_stride1].
  - unfold decoder_layers, decoder_first, decoder_last.
    rewrite <- !app_assoc.
    apply Forall_app. split;
      [constructor; [apply resamples_conv_stride1 | constructor]|].
    apply Forall_app. split; [apply resamples_lstm_layers|].
    apply Forall_app. split; [apply resamples_decoder_stages|].
    apply Forall_app. split;
      [apply resamples_pair; [exact I | apply resamples_conv_stride1]|].
    destruct (final_activation c) as [name|].
    + destruct Hres as [fcls [_ ->]]. constructor; [exact I | constructor].
    + subst final. constructor.
Qed.

Lemma resampling_widths_witness :
  exists enc dec,
    USEANetEncoder_init torch_nn_sample default_config = Ok enc /\
    USEANetDecoder_init torch_nn_sample default_config = Ok dec /\
    Forall resamples_by_two (enc_model enc) /\
    Forall resamples_by_two (dec_model dec).
Proof.
  pose proof (USEANetEncoder_init_closed torch_nn_sample default_config "ELU"
                eq_refl) as Henc.
  pose proof (USEANetDecoder_init_closed torch_nn_sample default_config
                "ELU" None eq_refl (or_introl eq_refl) eq_refl) as Hdec.
  eexists. eexists. split; [exact Henc|]. split; [exact Hdec|].
  exact (resampling_widths torch_nn_sample default_config _ _ Henc Hdec).
Defined.

(** ** The final activation *)

(** The loop reads of the decoder only its strategy and its adaptation
    layers. *)
Lemma dec_loop_same_fusion {T : Type} `{TensorOps T}
  (self1 self2 : USEANetDecoder) (acts : list T) (model : list layer)
  (x : T) (i : Z) :
  dec_skip_connection_type self1 = dec_skip_connection_type self2 ->
  adaptation_layers self1 = adaptation_layers self2 ->
  dec_loop self1 acts model x i = dec_loop self2 acts model x i.
Proof.
  intros Hsk Hadapt. revert x i.
  induction model as [|l model IH]; intros x i; [reflexivity|].
  cbn [dec_loop]. destruct (String.eqb (class_name l) "ELU").
  - destruct (call l x) as [x1|e]; [|reflexivity]. cbn [bind].
    replace (fuse self1 acts i x1) with (fuse self2 acts i x1)
      by (unfold fuse; now rewrite Hsk, Hadapt).
    destruct (fuse self2 acts i x1) as [x2|e]; [|reflexivity].
    cbn [bind]. apply IH.
  - destruct (call l x) as [x1|e]; [|reflexivity]. cbn [bind]. apply IH.
Qed.

Lemma decoder_stages_without_final (c : Config) (act : layer) (mult : Z)
  (rs : list Z) :
  decoder_stages (without_final c) act mult rs = decoder_stages c act mult rs.
Proof.
  revert mult. induction rs as [|r rs IH]; intros mult; [reflexivity|].
  cbn [decoder_stages]. now rewrite IH.
Qed.

Lemma decoder_layers_without_final (c : Config) (act : layer) :
  decoder_layers (without_final c) act = decoder_layers c act.
Proof.
  unfold decoder_layers. now rewrite decoder_stages_without_final.
Qed.

Lemma stage_adapters_without_final (c : Config) (mult : Z) (rs : list Z) :
  stage_adapters (without_final c) mult rs = stage_adapters c mult rs.
Proof.
  revert mult. induction rs as [|r rs IH]; intros mult; [reflexivity|].
  cbn [stage_adapters]. now rewrite IH.
Qed.

(** A final activation of another class than ELU is applied last and is no
    fusion point: the decoder returns what the decoder built without it
    returns, passed through the final activation. *)
Theorem final_activation_last {T : Type} `{TensorOps T}
  (torch_nn : string -> option string) (c : Config)
  (dec0 dec : USEANetDecoder) (name fcls : string) (x : T) (acts : list T) :
  final_activation c = Some name ->
  torch_nn name = Some fcls ->
  fcls <> "ELU" ->
  USEANetDecoder_init torch_nn (without_final c) = Ok dec0 ->
  USEANetDecoder_init torch_nn c = Ok dec ->
  USEANetDecoder_forward dec (x, acts) =
  y <- USEANetDecoder_forward dec0 (x, acts) ;; call (Act fcls) y.
Proof.
  intros Hfa Hname Hfcls Hinit0 Hinit.
  destruct (USEANetDecoder_init_Ok torch_nn c dec Hinit)
    as [cls [final [Hcls [_ [Hres ->]]]]].
  destruct (USEANetDecoder_init_Ok torch_nn (without_final c) dec0 Hinit0)
    as [cls0 [final0 [Hcls0 [_ [Hres0 ->]]]]].
  cbn [without_final activation final_activation] in Hcls0, Hres0.
  assert (cls0 = cls) as -> by congruence. subst final0.
  rewrite Hfa in Hres. destruct Hres as [fcls' [Hf ->]].
  assert (fcls' = fcls) as -> by congruence.
  unfold USEANetDecoder_forward. cbn [dec_model final_layers].
  match goal with
  | |- bind (dec_loop ?d _ _ _ _) _ = bind (bind (dec_loop ?d0 _ _ _ _) _) _ =>
      rewrite (dec_loop_same_fusion d0 d)
        by (cbn [adaptation_layers dec_skip_connection_type];
            first [reflexivity | now rewrite stage_adapters_without_final])
  end.
  rewrite decoder_layers_without_final, app_nil_r, dec_loop_app.
  match goal with
  | |- context [dec_loop ?s acts (decoder_layers c (Act cls)) x 0] =>
      destruct (dec_loop s acts (decoder_layers c (Act cls)) x 0)
        as [[y i]|e]; [|reflexivity]
  end.
  cbn [bind fst snd dec_loop class_name].
  apply String.eqb_neq in Hfcls. rewrite Hfcls.
  destruct (call (Act fcls) y) as [y'|e]; reflexivity.
Qed.

Lemma final_activation_last_witness :
  exists dec0 dec,
    USEANetDecoder_init torch_nn_sample one_stage_config = Ok dec0 /\
    USEANetDecoder_init torch_nn_sample tanh_config = Ok dec /\
    USEANetDecoder_forward dec (Shape 1 128 5, [Shape 1 32 10; Shape 1 64 5])
    = (y <- USEANetDecoder_forward dec0
              (Shape 1 128 5, [Shape 1 32 10; Shape 1 64 5]) ;;
       call (Act "Tanh") y).
Proof.
  pose proof (USEANetDecoder_init_closed torch_nn_sample one_stage_config
                "ELU" None eq_refl (or_introl eq_refl) eq_refl) as Hinit0.
  pose proof (USEANetDecoder_init_closed torch_nn_sample tanh_config
                "ELU" (Some (Act "Tanh")) eq_refl (or_introl eq_refl)
                (ex_intro _ "Tanh" (conj eq_refl eq_refl))) as Hinit.
  assert (Hne : "Tanh" <> "ELU") by discriminate.
  eexists. eexists. split; [exact Hinit0|]. split; [exact Hinit|].
  exact (@final_activation_last shape shape_ops torch_nn_sample tanh_config
           _ _ "Tanh" "Tanh" (Shape 1 128 5) [Shape 1 32 10; Shape 1 64 5]
           eq_refl eq_refl Hne Hinit0 Hinit).
Defined.
